(** * text-dedup: exact-hash and MinHash-LSH deduplication

    A shallow embedding of [text_dedup/utils/tokenization.py],
    [text_dedup/minhash.py] and [text_dedup/exact_hash.py], with the
    properties of the two deduplication engines stated and proved over it.

    Conventions.
    - A Python [str] is a list of Unicode code points ([N]); [bytes] is a
      list of [Byte.byte].
    - A numpy [uint64] is a [Z] in [0, 2^64); every product and sum is
      written with its wrap-around.
    - A Python [set] is a duplicate-free list; the order in which a set is
      iterated is left open: it is a parameter of the development, about
      which only "it is a permutation" is assumed.
    - A Python [dict] indexed by band keys is an association list in
      insertion order (which is the order [dict.values()] follows). *)

From Stdlib Require Import ZArith List Lia Bool Arith.
From Stdlib Require Import Strings.Byte Strings.Ascii Strings.String.
From stdpp Require Import base option list gmap sorting.

Local Open Scope nat_scope.

(** ** Strings *)

Module Str.

(** A code point. *)
Abbreviation char := N (only parsing).
Abbreviation str := (list N) (only parsing).

Definition space : char := 32%N.

(** The complement of the character class of
    [NON_ALPHA = re.compile("[^A-Za-z_0-9]")]:
    the characters that do NOT match, that is, that stay inside tokens. *)
Definition is_word (c : char) : bool :=
  ((65 <=? c) && (c <=? 90) || (97 <=? c) && (c <=? 122)
   || (c =? 95) || (48 <=? c) && (c <=? 57))%N.

(** [NON_ALPHA.split(content)]: the pattern matches exactly one
    character, never the empty string, so [re.split] cuts at every
    matching character and keeps the (possibly empty) pieces between. *)
Fixpoint split (content : str) : list str :=
  match content with
  | [] => [[]]
  | c :: rest =>
      if is_word c then
        match split rest with
        | t :: ts => (c :: t) :: ts
        | [] => [[c]]
        end
      else [] :: split rest
  end.

(** [sep.join(items)]. *)
Fixpoint join (sep : str) (items : list str) : str :=
  match items with
  | [] => []
  | [x] => x
  | x :: rest => x ++ sep ++ join sep rest
  end.

(** Where a rendered string carries a space it should not: at its
    start, at its end, or twice in a row. *)
Definition is_space (c : char) : bool := (c =? space)%N.

Definition leading_space (s : str) : bool :=
  match s with
  | c :: _ => is_space c
  | [] => false
  end.

Fixpoint trailing_space (s : str) : bool :=
  match s with
  | [] => false
  | [c] => is_space c
  | _ :: rest => trailing_space rest
  end.

Fixpoint double_space (s : str) : bool :=
  match s with
  | [] => false
  | c :: rest => is_space c && leading_space rest || double_space rest
  end.

Definition well_spaced (s : str) : bool :=
  negb (leading_space s || trailing_space s || double_space s).

(** A string without any space, and the number of spaces of a string. *)
Definition space_free (t : str) : Prop :=
  forallb (λ c, negb (is_space c)) t = true.

Definition count_spaces (s : str) : nat :=
  length (filter (λ c, is_space c = true) s).

(** The code points of an ASCII literal, for the examples. *)
Definition of_string (s : string) : str :=
  N_of_ascii <$> list_ascii_of_string s.

End Str.

(** ** Bytes and fixed-width integers *)

Module Bytes.

Abbreviation bytes := (list byte) (only parsing).

#[export] Instance byte_eq_dec : EqDecision byte := Byte.byte_eq_dec.

Definition byte_of_N (n : N) : byte :=
  default x00 (Byte.of_N (n mod 256)).

Definition byte_of_Z (z : Z) : byte := byte_of_N (Z.to_N (z mod 256)).

Definition Z_of_byte (b : byte) : Z := Z.of_N (Byte.to_N b).

(** The [width] bytes of [v] in little-endian order: the memory of one
    array element on the little-endian hosts the program runs on. *)
Fixpoint le_bytes (width : nat) (v : Z) : bytes :=
  match width with
  | 0 => []
  | S w => byte_of_Z v :: le_bytes w (Z.shiftr v 8)
  end.

(** The [width] bytes of [v], most significant first. *)
Fixpoint be_bytes (width : nat) (v : Z) : bytes :=
  match width with
  | 0 => []
  | S w => byte_of_Z (Z.shiftr v (8 * Z.of_nat w)) :: be_bytes w v
  end.

(** [struct.unpack("<I", data)[0]] and the like: the unsigned integer a
    byte string denotes, least significant byte first. *)
Fixpoint le_decode (data : bytes) : Z :=
  match data with
  | [] => 0
  | b :: rest => Z_of_byte b + 256 * le_decode rest
  end.

(** [s.encode("utf-8")] on one code point.  (Python refuses surrogate
    code points; the strings encoded here never hold one.) *)
Definition utf8_char (c : N) : bytes :=
  (if c <? 128 then [byte_of_N c]
   else if c <? 2048 then
     [byte_of_N (192 + c / 64); byte_of_N (128 + c mod 64)]
   else if c <? 65536 then
     [byte_of_N (224 + c / 4096); byte_of_N (128 + (c / 64) mod 64);
      byte_of_N (128 + c mod 64)]
   else
     [byte_of_N (240 + c / 262144); byte_of_N (128 + (c / 4096) mod 64);
      byte_of_N (128 + (c / 64) mod 64); byte_of_N (128 + c mod 64)])%N.

Definition encode_utf8 (s : list N) : bytes := s ≫= utf8_char.

(** [a[start:stop]] for non-negative bounds: Python clips the slice to
    the sequence, it never raises. *)
Definition slice {A} (l : list A) (start stop : nat) : list A :=
  take (stop - start) (drop start l).

End Bytes.

(** ** What the program takes from its runtime

    - [sha1_digest] is [hashlib.sha1(data).digest()];
    - [iter_str_set] and [iter_int_set] give the order in which Python
      iterates a set with the given members (for [str] it changes from
      one process to the next with the hash seed). *)

Class Runtime := {
  sha1_digest : list byte → list byte;
  iter_str_set : list (list N) → list (list N);
  iter_int_set : list nat → list nat
}.

Class RuntimeOk (rt : Runtime) : Prop := {
  sha1_digest_length : ∀ data, length (sha1_digest data) = 20;
  iter_str_set_perm : ∀ s, iter_str_set s ≡ₚ s;
  iter_int_set_perm : ∀ s, iter_int_set s ≡ₚ s
}.

(** ** utils/tokenization.py *)

Module Tokenization.

Section Ngrams.
Context {A : Type}.

(** [zip( *iterables )]: one tuple per round, made of the next item of
    every iterable, until one of them is exhausted; [zip()] of no
    iterable at all yields nothing.  [fuel] bounds the rounds. *)
Fixpoint zip_star (fuel : nat) (iterables : list (list A)) : list (list A) :=
  match fuel with
  | 0 => []
  | S fuel' =>
      match iterables with
      | [] => []
      | _ :: _ =>
          match mapM head iterables with
          | Some row => row :: zip_star fuel' (tail <$> iterables)
          | None => []
          end
      end
  end.

(** [ngrams(sequence, n, min_length)].  After the [tee] and the
    [next] calls the [i]-th iterator stands [i] items into the
    sequence; no iterator holds more than [len(sequence)] items, which
    bounds the rounds of the [zip]. *)
Definition ngrams (sequence : list A) (n : nat) (min_length : nat)
  : list (list A) :=
  if length sequence <? min_length then []
  else if length sequence <? n then [sequence]
  else
    let iterables := (λ i, drop i sequence) <$> seq 0 n in
    zip_star (length sequence) iterables.

End Ngrams.

(** What [ngram_np_chararray] hands to [np.char.array]: a list of
    strings, or one string.  The array numpy makes of it stays outside
    the embedding. *)
Inductive char_source : Type :=
  | of_list (items : list Str.str)
  | of_str (s : Str.str).

(** [ngram_np_chararray(sequence, n, min_length)], up to the call of
    [np.char.array]. *)
Definition ngram_np_chararray (sequence : list Str.str) (n : nat)
    (min_length : nat) : char_source :=
  let LEN_SEQUENCE := length sequence in
  if LEN_SEQUENCE <? min_length then of_list [[]]
  else if LEN_SEQUENCE <? n then of_str (Str.join [Str.space] sequence)
  else
    of_list ((λ index,
                Str.join [Str.space] (Bytes.slice sequence index (index + n)))
               <$> seq 0 (LEN_SEQUENCE - n + 1)).

End Tokenization.

(** ** utils/union_find.py *)

Module UnionFind.

(** Modelled from the spec: the class [UnionFind] that [minhash.py]
    imports from [text_dedup.utils] is not among the sources.  The spec
    (sections 3 and 4.5) gives it as a map from each id to a parent id,
    with a path-compressed [find] that returns the root, and
    "[union(x, y)] sets [parent[max(rx, ry)] = min(rx, ry)] where
    [rx = find(x), ry = find(y)]; if [rx == ry], no-op".  [UnionFind()]
    starts empty: an id the map does not hold is its own parent. *)
Definition empty : gmap nat nat := ∅.

(** Modelled from the spec: [find] follows the parents up to the root
    and, on the way back, hangs every id it met directly under the root
    (path compression).  [fuel] is the recursion depth available. *)
Fixpoint find_rec (fuel : nat) (parent : gmap nat nat) (x : nat)
  : option (gmap nat nat * nat) :=
  match fuel with
  | 0 => None
  | S fuel' =>
      let px := default x (parent !! x) in
      if decide (px = x) then Some (parent, x)
      else
        '(parent', root) ← find_rec fuel' parent px;
        Some (<[x := root]> parent', root)
  end.

(** Modelled from the spec: [find(x)], with the depth a chain of [x + 1]
    ids needs; [None] stands for Python running out of recursion depth. *)
Definition find (parent : gmap nat nat) (x : nat)
  : option (gmap nat nat * nat) :=
  find_rec (S x) parent x.

(** Modelled from the spec: [union(x, y)] finds the two roots and, when
    they differ, sets [parent[max(rx, ry)] = min(rx, ry)]. *)
Definition union (parent : gmap nat nat) (x y : nat)
  : option (gmap nat nat) :=
  '(parent1, rx) ← find parent x;
  '(parent2, ry) ← find parent1 y;
  if decide (rx = ry) then Some parent2
  else Some (<[Nat.max rx ry := Nat.min rx ry]> parent2).

(** For the statements: the root an id leads to, read off the map
    without changing it, and the shape the maps of the program keep (a
    parent is never above its child). *)
Fixpoint root_rec (fuel : nat) (parent : gmap nat nat) (x : nat) : nat :=
  match fuel with
  | 0 => x
  | S fuel' =>
      let px := default x (parent !! x) in
      if decide (px = x) then x else root_rec fuel' parent px
  end.

Definition root (parent : gmap nat nat) (x : nat) : nat :=
  root_rec (S x) parent x.

Definition well_formed (parent : gmap nat nat) : Prop :=
  ∀ x y, parent !! x = Some y → y ≤ x.

(** A later state of the structure: ids that shared a root still do, and
    no root went up. *)
Definition extends (parent parent' : gmap nat nat) : Prop :=
  well_formed parent' ∧
  (∀ x y, root parent x = root parent y → root parent' x = root parent' y) ∧
  (∀ z, root parent' z ≤ root parent z).

End UnionFind.

(** ** minhash.py *)

Module MinHash.
Import Str Bytes Tokenization.

Local Open Scope Z_scope.

Definition MAX_HASH : Z := Z.shiftl 1 32 - 1.
Definition MERSENNE_PRIME : Z := Z.shiftl 1 61 - 1.

(** numpy's [uint64] arithmetic: results are taken modulo [2^64]. *)
Definition wrap64 (z : Z) : Z := z mod 2 ^ 64.
Definition mul64 (x y : Z) : Z := wrap64 (x * y).
Definition add64 (x y : Z) : Z := wrap64 (x + y).

(** One entry of [phv]:
    [np.bitwise_and((hv * a + b) % MERSENNE_PRIME, MAX_HASH)]
    on [uint64] operands. *)
Definition permute (h a b : Z) : Z :=
  Z.land (add64 (mul64 h a) b mod MERSENNE_PRIME) MAX_HASH.

(** [bytes(arr.byteswap().data)]: every 8-byte element with its bytes
    reversed, one element after the other. *)
Definition byteswap_bytes (arr : list Z) : bytes :=
  arr ≫= (λ v, rev (le_bytes 8 v)).

Section WithRuntime.
Context {rt : Runtime}.

(** [struct.unpack("<I", hashlib.sha1(data).digest()[:4])[0]] *)
Definition sha1_hash32 (data : bytes) : Z :=
  le_decode (take 4 (sha1_digest data)).

(** The set comprehension [{" ".join(t) for t in ngrams(sequence, n, m)}],
    as the duplicate-free list of its members. *)
Definition shingle_set (sequence : list str) (n m : nat) : list str :=
  remove_dups (join [space] <$> ngrams sequence n m).

(** [tokens] of [embed_func]: the comprehension over
    [ngrams(NON_ALPHA.split(content), ngram_size)], where [min_length]
    takes its default, 5. *)
Definition shingles (content : str) (ngram_size : nat) : list str :=
  shingle_set (split content) ngram_size 5.

(** [hashvalues] of [embed_func] after the [vstack(...).min(axis=0)]:
    the column-wise minimum of the rows of [phv] and of the initial
    row of [MAX_HASH].  numpy wants [a] and [b] of [num_perm] entries, as
    the driver builds them; the statements that depend on it say so. *)
Definition signature (tokens : list str) (num_perm : nat)
    (permutations : list Z * list Z) : list Z :=
  let hashvalues := replicate num_perm (mul64 1 MAX_HASH) in
  let hv := (λ token, sha1_hash32 (encode_utf8 token)) <$> tokens in
  let '(a, b) := permutations in
  let phv := (λ h, zip_with (permute h) a b) <$> hv in
  foldr (zip_with Z.min) hashvalues phv.

(** [embed_func]; the result is the pair
    [(__signatures__, __id__)]. *)
Definition embed_func (content : str) (idx : nat) (num_perm : nat)
    (ngram_size : nat) (hashranges : list (nat * nat))
    (permutations : list Z * list Z) : list bytes * nat :=
  let tokens := iter_str_set (shingles content ngram_size) in
  let hashvalues := signature tokens num_perm permutations in
  let Hs :=
    (λ '(start, stop), byteswap_bytes (slice hashvalues start stop))
      <$> hashranges in
  (Hs, idx).

End WithRuntime.

Local Close Scope Z_scope.

(** *** The parameter oracle

    Python floats and [scipy.integrate.quad] stay outside the embedding:
    [number] is the type of the error values, [num_lt] its [<],
    [num_inf] is [float("inf")], and [weighted_error] stands for lines
    155-157 of [optimal_param], the error of one candidate:
    [fp * false_positive_weight + fn * false_negative_weight]. *)
Class Numbers := {
  number : Type;
  num_lt : number → number → bool;
  num_inf : number;
  weighted_error : number → number → number → nat → nat → number
}.

(** What the proofs use of the numbers: [<] is a strict weak order (as
    it is on the floats that are not NaN). *)
Class NumbersOk (nb : Numbers) : Prop := {
  num_lt_irrefl : ∀ x, num_lt x x = false;
  num_lt_trans : ∀ x y z,
    num_lt x y = true → num_lt y z = true → num_lt x z = true;
  num_lt_cotrans : ∀ x y z,
    num_lt x y = true → num_lt x z = true ∨ num_lt z y = true
}.

Section Oracle.
Context {nb : Numbers}.

(** The body of the inner loop: the state is [(min_error, opt)]. *)
Definition sweep_step (error : nat → nat → number) (b : nat)
    (st : number * (nat * nat)) (r : nat) : number * (nat * nat) :=
  let '(min_error, opt) := st in
  if num_lt (error b r) min_error then (error b r, (b, r))
  else (min_error, opt).

(** The body of the outer loop.  [int(num_perm / b)] is the quotient
    of the integer division for the sizes the program is run with. *)
Definition sweep_row (error : nat → nat → number) (num_perm : nat)
    (st : number * (nat * nat)) (b : nat) : number * (nat * nat) :=
  let max_r := num_perm / b in
  foldl (sweep_step error b) st (seq 1 max_r).

Definition optimal_param (threshold : number) (num_perm : nat)
    (false_positive_weight false_negative_weight : number) : nat * nat :=
  let error :=
    weighted_error threshold false_positive_weight false_negative_weight in
  snd (foldl (sweep_row error num_perm) (num_inf, (0, 0)) (seq 1 num_perm)).

(** For the statements: the body of the inner loop as a function of the
    candidate, the candidates of the sweep in the order the two loops
    visit them, and that order on pairs. *)
Definition flat_step (error : nat → nat → number)
    (st : number * (nat * nat)) (c : nat * nat) : number * (nat * nat) :=
  sweep_step error c.1 st c.2.

Definition candidates (num_perm : nat) : list (nat * nat) :=
  b ← seq 1 num_perm; (λ r, (b, r)) <$> seq 1 (num_perm / b).

Definition scanned_before (c1 c2 : nat * nat) : Prop :=
  c1.1 < c2.1 ∨ (c1.1 = c2.1 ∧ c1.2 < c2.2).

End Oracle.

(** *** The driver ([if __name__ == "__main__"]) *)

(** One of [HASH_TABLES]: a [defaultdict(set)] from band key to the ids
    of the bucket, in the order the keys were first met. *)
Abbreviation table := (list (list byte * list nat)) (only parsing).

(** [s.add(key)] on the members of a set. *)
Definition set_add (key : nat) (members : list nat) : list nat :=
  if decide (key ∈ members) then members else members ++ [key].

(** [hashtable[H].add(key)] *)
Fixpoint table_add (H : bytes) (key : nat) (hashtable : table) : table :=
  match hashtable with
  | [] => [(H, set_add key [])]
  | (H', members) :: others =>
      if decide (H' = H) then (H', set_add key members) :: others
      else (H', members) :: table_add H key others
  end.

(** For the statements: the bucket a table holds under a key (empty when
    the key is absent), and what indexing one record does to the table of
    band [t]. *)
Fixpoint bucket (H : bytes) (hashtable : table) : list nat :=
  match hashtable with
  | [] => []
  | (H', members) :: others =>
      if decide (H' = H) then members else bucket H others
  end.

Definition index_band (t : nat) (hashtable : table)
    (record : list bytes * nat) : table :=
  match record.1 !! t with
  | Some H => table_add H record.2 hashtable
  | None => hashtable
  end.

(** For the statements: what the table of band [t] is after the records
    [recs] were indexed: its keys are distinct, its buckets are sets
    without duplicates, none of them empty, and a bucket holds the ids of
    the records with that key in band [t]. *)
Definition band_ok (t : nat) (recs : list (list bytes * nat))
    (hashtable : table) : Prop :=
  NoDup hashtable.*1 ∧
  (∀ H, NoDup (bucket H hashtable)) ∧
  (∀ H, H ∈ hashtable.*1 ↔ bucket H hashtable ≠ []) ∧
  (∀ H k, k ∈ bucket H hashtable
          ↔ ∃ Hs, (Hs, k) ∈ recs ∧ Hs !! t = Some H).

(** [for H, hashtable in zip(Hs, HASH_TABLES): hashtable[H].add(key)] *)
Fixpoint index_record (key : nat) (Hs : list bytes) (tables : list table)
  : list table :=
  match Hs, tables with
  | H :: Hs', hashtable :: tables' =>
      table_add H key hashtable :: index_record key Hs' tables'
  | _, _ => tables
  end.

(** [embedded[i : i + batch_size] for i in range(0, len(embedded), batch_size)],
    for [batch_size >= 1] (Python refuses a [range] of step zero; here
    there is then no batch at all). *)
Definition batches {A} (embedded : list A) (batch_size : nat) : list (list A) :=
  (λ j, slice embedded (j * batch_size) (j * batch_size + batch_size))
    <$> seq 0 ((length embedded + batch_size - 1) / batch_size).

(** [min(cluster)] of a set that is not empty. *)
Definition min_of (cluster : list nat) : nat :=
  match cluster with
  | [] => 0
  | x :: rest => foldr Nat.min x rest
  end.

Section Driver.
Context {rt : Runtime}.

Definition HASH_RANGES (B R : nat) : list (nat * nat) :=
  (λ i, (i * R, (i + 1) * R)) <$> seq 0 B.

(** The "MinHashing" stage: [ds.map(embed_func, with_indices=True)]. *)
Definition embed_all (B R num_perm ngram : nat)
    (permutations : list Z * list Z) (ds : list str)
  : list (list bytes * nat) :=
  imap (λ idx content,
          embed_func content idx num_perm ngram (HASH_RANGES B R)
            permutations) ds.

(** The first loop of the "Clustering" stage. *)
Definition index_batch (tables : list table)
    (batch : list (list bytes * nat)) : list table :=
  foldl (λ tables '(Hs, key), index_record key Hs tables) tables batch.

Definition build_tables (B batch_size : nat)
    (embedded : list (list bytes * nat)) : list table :=
  foldl index_batch (replicate B []) (batches embedded batch_size).

(** The body of [for cluster in table.values()]. *)
Definition union_cluster (uf : gmap nat nat) (cluster : list nat)
  : option (gmap nat nat) :=
  if length cluster <=? 1 then Some uf
  else
    let idx := min_of cluster in
    foldl (λ uf x, uf ≫= λ uf, UnionFind.union uf x idx)
          (Some uf) (iter_int_set cluster).

(** The second loop of the "Clustering" stage. *)
Definition union_table (uf : option (gmap nat nat)) (hashtable : table)
  : option (gmap nat nat) :=
  foldl (λ uf cluster, uf ≫= λ uf, union_cluster uf cluster)
        uf (snd <$> hashtable).

Definition cluster_tables (tables : list table) : option (gmap nat nat) :=
  foldl union_table (Some UnionFind.empty) tables.

(** The "Filtering" stage, first pass: [__cluster__ = uf.find(idx)]
    for every record in turn, on the one [uf]. *)
Fixpoint find_clusters (uf : gmap nat nat) (ids : list nat)
  : option (list nat) :=
  match ids with
  | [] => Some []
  | idx :: rest =>
      '(uf', c) ← UnionFind.find uf idx;
      cs ← find_clusters uf' rest;
      Some (c :: cs)
  end.

(** The "Filtering" stage, second pass:
    [ds.filter(lambda record, idx: record["__cluster__"] == idx)]. *)
Definition keep_roots (ds : list str) (clusters : list nat)
  : list (nat * str) :=
  filter (λ '(idx, _), clusters !! idx = Some idx) (imap pair ds).

(** The whole run up to the clustering. *)
Definition cluster_ids (B R num_perm ngram batch_size : nat)
    (permutations : list Z * list Z) (ds : list str)
  : option (list nat) :=
  let embedded := embed_all B R num_perm ngram permutations ds in
  let tables := build_tables B batch_size embedded in
  uf ← cluster_tables tables;
  find_clusters uf (seq 0 (length ds)).

(** [final_data]: [None] when a [find] runs out of recursion depth. *)
Definition minhash_dedup (B R num_perm ngram batch_size : nat)
    (permutations : list Z * list Z) (ds : list str)
  : option (list str) :=
  clusters ← cluster_ids B R num_perm ngram batch_size permutations ds;
  Some (snd <$> keep_roots ds clusters).

End Driver.

End MinHash.

(** ** exact_hash.py *)

Module ExactHash.
Import Str Bytes.

Section Engine.
(** [hash_func], one of [md5_hexdigest], [sha256_hexdigest] and
    [xxh3_128_digest] of [text_dedup.utils.hashfunc]: a function from
    bytes to digests that are compared by value. *)
Context {digest : Type} `{EqDecision digest}.
Variable hash_func : bytes → digest.

(** [mp_exact_finder]; the state is [(hash_dict, flags)], the keys of
    the shared dict and the shared array of flags.  (An index beyond
    the array would raise in Python; [exact_index_le] shows the caller
    never passes one.) *)
Definition mp_exact_finder (example : str) (idx : nat)
    (st : list digest * list bool) : list digest * list bool :=
  let '(hash_dict, flags) := st in
  let h := hash_func (encode_utf8 example) in
  if decide (h ∈ hash_dict) then (hash_dict, <[idx := true]> flags)
  else (h :: hash_dict, flags).

(** [ds.shard(num_shards, index, contiguous=True)] of the [datasets]
    library: the records are cut into [num_shards] consecutive runs,
    the first [len(ds) % num_shards] of them one record longer. *)
Definition shard {A} (ds : list A) (num_shards index : nat) : list A :=
  let div := length ds / num_shards in
  let md := length ds mod num_shards in
  let start := div * index + Nat.min index md in
  let stop := start + div + (if index <? md then 1 else 0) in
  slice ds start stop.

(** [int(np.ceil(LEN_DATASET / args.batch_size))], for
    [batch_size >= 1] (Python raises on a division by zero). *)
Definition NUM_SHARDS (len_dataset batch_size : nat) : nat :=
  (len_dataset + batch_size - 1) / batch_size.

(** The index the lambda of the "Processing" stage passes on. *)
Definition flag_index (len_shard shard_idx batch_idx : nat) : nat :=
  len_shard * shard_idx + batch_idx.

(** One turn of [for shard_idx in range(0, NUM_SHARDS)].  The [map]
    visits the records of the shard in order: "currently processing is
    done on a single thread", as the source says; workers racing on the
    shared dict are not modelled. *)
Definition process_shard (ds : list str) (num_shards : nat)
    (st : list digest * list bool) (shard_idx : nat)
  : list digest * list bool :=
  let ds_shard := shard ds num_shards shard_idx in
  let LEN_SHARD := length ds_shard in
  foldl (λ st '(batch_idx, example),
           mp_exact_finder example
             (flag_index LEN_SHARD shard_idx batch_idx) st)
        st (imap pair ds_shard).

(** The "Processing" stage: the flags it leaves. *)
Definition exact_flags (batch_size : nat) (ds : list str) : list bool :=
  let LEN_DATASET := length ds in
  let flags := replicate LEN_DATASET false in
  let num_shards := NUM_SHARDS LEN_DATASET batch_size in
  snd (foldl (process_shard ds num_shards) ([], flags)
             (seq 0 num_shards)).

(** The "Filtering" stage:
    [ds.filter(lambda _, idx: not flags[idx], with_indices=True)]. *)
Definition keep_unflagged (ds : list str) (flags : list bool)
  : list (nat * str) :=
  filter (λ '(idx, _), flags !! idx = Some false) (imap pair ds).

Definition exact_dedup (batch_size : nat) (ds : list str) : list str :=
  snd <$> keep_unflagged ds (exact_flags batch_size ds).


End Engine.

End ExactHash.

(** ** Sample runtimes

    Two runtimes that differ in the order of set iteration only; the
    digest is a stand-in of the right length. *)

Definition sample_digest (data : list byte) : list byte :=
  take 20 (data ++ replicate 20 x00).

Definition forward_runtime : Runtime :=
  {| sha1_digest := sample_digest; iter_str_set := id; iter_int_set := id |}.

Definition backward_runtime : Runtime :=
  {| sha1_digest := sample_digest;
     iter_str_set := reverse; iter_int_set := reverse |}.

(** ** Sample numbers

    Integers with an infinity on top ([None]); the error of a candidate
    is the distance of [b * r] from the threshold. *)

Definition sample_lt (x y : option Z) : bool :=
  match x, y with
  | Some a, Some b => (a <? b)%Z
  | Some _, None => true
  | None, _ => false
  end.

Definition sample_numbers : MinHash.Numbers :=
  {| MinHash.number := option Z;
     MinHash.num_lt := sample_lt;
     MinHash.num_inf := None;
     MinHash.weighted_error := λ t _ _ b r,
       match t with
       | Some t => Some (Z.abs (Z.of_nat (b * r) - t))
       | None => None
       end |}.

(** * Properties *)

Lemma sample_numbers_ok : MinHash.NumbersOk sample_numbers.
Proof.
  split; cbn.
  - intros [x|]; cbn; [apply Z.ltb_irrefl|done].
  - intros [x|] [y|] [z|]; cbn; try done.
    rewrite !Z.ltb_lt. lia.
  - intros [x|] [y|] [z|]; cbn; rewrite ?Z.ltb_lt; try (by auto); lia.
Defined.

Lemma forward_runtime_ok : RuntimeOk forward_runtime.
Proof.
  split; try done. intros data. cbn. unfold sample_digest.
  rewrite length_take, length_app, length_replicate. lia.
Defined.

Lemma backward_runtime_ok : RuntimeOk backward_runtime.
Proof.
  split; cbn.
  - apply forward_runtime_ok.
  - intros s. apply reverse_Permutation.
  - intros s. apply reverse_Permutation.
Defined.

(** ** Splitting and joining *)

Module StrFacts.
Import Str.

Lemma is_word_not_space c : is_word c = true → is_space c = false.
Proof.
  unfold is_word, is_space, space. intros H.
  destruct (N.eqb_spec c 32) as [->|]; [done|done].
Qed.

Lemma split_nonempty content : split content ≠ [].
Proof.
  destruct content as [|c rest]; simpl; [done|].
  destruct (is_word c); [|done]. by destruct (split rest).
Qed.

Lemma split_tokens_word content :
  Forall (λ t, forallb is_word t = true) (split content).
Proof.
  induction content as [|c rest IH]; simpl.
  - by constructor.
  - destruct (is_word c) eqn:Hc.
    + destruct (split rest) as [|t ts]; [by repeat constructor; simpl; rewrite Hc|].
      inversion IH; subst. constructor; [|done]. simpl. by rewrite Hc.
    + by constructor.
Qed.

(** The number of tokens is one more than the number of delimiters. *)
Lemma split_length content :
  length (split content) = S (length (filter (λ c, is_word c = false) content)).
Proof.
  induction content as [|c rest IH]; [done|].
  rewrite filter_cons. cbn [split]. destruct (is_word c) eqn:Hc.
  - rewrite decide_False by done.
    destruct (split rest); simpl in *; [lia|done].
  - rewrite decide_True by done. simpl. by rewrite IH.
Qed.

Lemma word_space_free t : forallb is_word t = true → space_free t.
Proof.
  unfold space_free. induction t as [|c t IH]; simpl; [done|].
  intros [Hc Ht]%andb_prop. rewrite (is_word_not_space c Hc). simpl. auto.
Qed.

Lemma leading_space_app s u :
  leading_space (s ++ u) = match s with [] => leading_space u | _ => leading_space s end.
Proof. by destruct s. Qed.

Lemma trailing_space_app s u :
  trailing_space (s ++ u) = match u with [] => trailing_space s | _ => trailing_space u end.
Proof.
  induction s as [|c s IH]; simpl.
  - by destruct u.
  - destruct (s ++ u) as [|d r] eqn:E.
    + apply app_eq_nil in E as [-> ->]. done.
    + rewrite IH. destruct u; [|done]. rewrite app_nil_r in E. by rewrite E.
Qed.

Lemma trailing_space_cons c s :
  trailing_space (c :: s) = match s with [] => is_space c | _ => trailing_space s end.
Proof. by destruct s. Qed.

Lemma double_space_app s u :
  double_space (s ++ u)
  = double_space s || (trailing_space s && leading_space u) || double_space u.
Proof.
  induction s as [|c s IH]; simpl; [done|].
  rewrite IH, leading_space_app.
  destruct s as [|d s]; simpl.
  - destruct (is_space c), (leading_space u), (double_space u); done.
  - destruct (is_space c), (is_space d), (double_space (d :: s)),
      (trailing_space (d :: s)), (leading_space u), (double_space u); done.
Qed.

Lemma space_free_leading t : space_free t → leading_space t = false.
Proof.
  unfold space_free. destruct t as [|c t]; simpl; [done|].
  intros [H _]%andb_prop. by destruct (is_space c).
Qed.

Lemma space_free_trailing t : space_free t → trailing_space t = false.
Proof.
  unfold space_free. induction t as [|c t IH]; simpl; [done|].
  intros [H Ht]%andb_prop. destruct t; [by destruct (is_space c)|auto].
Qed.

Lemma space_free_double t : space_free t → double_space t = false.
Proof.
  unfold space_free. induction t as [|c t IH]; simpl; [done|].
  intros [H Ht]%andb_prop. rewrite IH by done. by destruct (is_space c).
Qed.

Lemma count_spaces_app s u : count_spaces (s ++ u) = count_spaces s + count_spaces u.
Proof. unfold count_spaces. by rewrite filter_app, length_app. Qed.

Lemma space_free_count t : space_free t → count_spaces t = 0.
Proof.
  unfold space_free, count_spaces. induction t as [|c t IH]; [done|].
  cbn [forallb]. intros [H Ht]%andb_prop. rewrite filter_cons, decide_False; [auto|]. by destruct (is_space c).
Qed.

Lemma join_cons2 sep (t u : str) (w : list str) :
  join sep (t :: u :: w) = t ++ sep ++ join sep (u :: w).
Proof. done. Qed.

Lemma join_count_spaces (w : list str) :
  Forall space_free w →
  count_spaces (join [space] w) = length w - 1.
Proof.
  induction w as [|t w IH]; [done|]. intros Hw. inversion Hw as [|? ? Ht Hw']; subst.
  destruct w as [|u w]; [simpl; rewrite space_free_count; done|].
  rewrite join_cons2, !count_spaces_app, IH, (space_free_count t) by done.
  simpl. unfold count_spaces. simpl. lia.
Qed.

(** A window of at least two tokens is well spaced exactly when none of
    its tokens is empty. *)
Lemma join_leading (w : list str) :
  Forall space_free w →
  leading_space (join [space] w) = match w with [] :: _ :: _ => true | _ => false end.
Proof.
  intros Hw. destruct w as [|t w]; [done|]. inversion Hw; subst.
  destruct w as [|u w].
  - simpl. rewrite space_free_leading by done. by destruct t.
  - rewrite join_cons2, leading_space_app. destruct t; [done|]. by apply space_free_leading.
Qed.

Lemma join_well_spaced (w : list str) :
  Forall space_free w → Forall (λ t, t ≠ []) w →
  well_spaced (join [space] w) = true.
Proof.
  intros Hw Hne. unfold well_spaced.
  enough (leading_space (join [space] w) = false ∧
          trailing_space (join [space] w) = false ∧
          double_space (join [space] w) = false) as (-> & -> & ->); [done|].
  induction w as [|t w IH]; [done|].
  inversion Hw as [|? ? Ht Hw']; inversion Hne as [|? ? Hnt Hne']; subst.
  destruct w as [|u w].
  - simpl. auto using space_free_leading, space_free_trailing, space_free_double.
  - destruct (IH Hw' Hne') as (Hl & Htr & Hd). rewrite join_cons2.
    split; [|split].
    + rewrite leading_space_app. destruct t; [done|]. by apply space_free_leading.
    + rewrite trailing_space_app.
      change ([space] ++ join [space] (u :: w))
        with (space :: join [space] (u :: w)).
      cbv iota. rewrite trailing_space_cons.
      destruct (join [space] (u :: w)) eqn:E; [|done].
      exfalso. inversion Hne'; subst.
      destruct u as [|c u]; [done|]. destruct w; simpl in E; discriminate.
    + rewrite double_space_app, (space_free_double t), (space_free_trailing t) by done.
      change ([space] ++ join [space] (u :: w))
        with (space :: join [space] (u :: w)).
      cbn [double_space]. rewrite Hl, Hd. done.
Qed.

Lemma join_ill_spaced (w : list str) :
  2 ≤ length w → Exists (λ t, t = []) w →
  well_spaced (join [space] w) = false.
Proof.
  unfold well_spaced. intros Hlen Hex. apply negb_false_iff.
  induction w as [|t w IH]; [simpl in Hlen; lia|].
  destruct w as [|u w]; [simpl in Hlen; lia|].
  rewrite join_cons2.
  change (t ++ [space] ++ join [space] (u :: w))
    with (t ++ space :: join [space] (u :: w)).
  destruct t as [|c t]; [done|].
  inversion Hex as [? ? Hc|? ? Hex']; subst; [done|].
  assert (HJ : join [space] (u :: w) = [] ∨
               leading_space (join [space] (u :: w))
               || trailing_space (join [space] (u :: w))
               || double_space (join [space] (u :: w)) = true).
  { destruct w as [|v w].
    - left. inversion Hex' as [? ? Hu|? ? Hn]; subst; [done|inversion Hn].
    - right. apply IH; [simpl; lia|done]. }
  clear IH Hex Hex' Hlen.
  rewrite trailing_space_app, double_space_app. cbv iota.
  rewrite trailing_space_cons. cbn [double_space].
  assert (Hsp : is_space space = true) by done. rewrite Hsp.
  destruct HJ as [->|HJ]; [by rewrite !orb_true_r|].
  destruct (join [space] (u :: w)) as [|d J] eqn:E; [done|].
  destruct (leading_space (d :: J)), (trailing_space (d :: J)),
    (double_space (d :: J)); try done; by rewrite ?orb_true_r.
Qed.

End StrFacts.

(** ** The shingler *)

Module TokenizationFacts.
Import Str Bytes Tokenization.
Section Ngrams.
Context {A : Type}.
Implicit Types (s : list A) (n k : nat).

Lemma heads_of_drops s n k :
  k + n ≤ length s →
  mapM head ((λ i, drop i s) <$> seq k n) = Some (take n (drop k s)).
Proof.
  revert k. induction n as [|n IH]; intros k Hk; simpl.
  - by rewrite take_0.
  - destruct (lookup_lt_is_Some_2 s k) as [x Hx]; [lia|].
    rewrite head_lookup, lookup_drop, Nat.add_0_r, Hx. simpl.
    rewrite IH by lia. simpl.
    by rewrite (drop_S _ _ _ Hx).
Qed.

Lemma heads_of_drops_short s n k :
  1 ≤ n → length s < k + n →
  mapM head ((λ i, drop i s) <$> seq k n) = None.
Proof.
  intros Hn Hlen. apply mapM_None, Exists_exists.
  exists (drop (k + n - 1) s). split.
  - apply list_elem_of_fmap. exists (k + n - 1). split; [done|].
    apply elem_of_seq. lia.
  - rewrite drop_ge by lia. done.
Qed.

Lemma tails_of_drops x s n :
  tail <$> ((λ i, drop i (x :: s)) <$> seq 0 n) = (λ i, drop i s) <$> seq 0 n.
Proof.
  assert (Ht : ∀ l : list A, tail l = drop 1 l) by (by intros []).
  rewrite <- list_fmap_compose. apply list_fmap_ext. intros _ i _.
  unfold compose. rewrite Ht, drop_drop.
  by replace (i + 1) with (S i) by lia.
Qed.

Lemma zip_star_unfold fuel (its : list (list A)) :
  its ≠ [] →
  zip_star (S fuel) its =
    match mapM head its with
    | Some row => row :: zip_star fuel (tail <$> its)
    | None => []
    end.
Proof. by destruct its. Qed.

Lemma zip_star_drops s n fuel :
  1 ≤ n → length s ≤ fuel →
  zip_star fuel ((λ i, drop i s) <$> seq 0 n)
  = (λ i, take n (drop i s)) <$> seq 0 (length s + 1 - n).
Proof.
  intros Hn. revert fuel.
  assert (Hne : ∀ l : list A, (λ i, drop i l) <$> seq 0 n ≠ []).
  { intros l. destruct n; [lia|]. done. }
  induction s as [|x s IH]; intros fuel Hfuel.
  - replace (length (@nil A) + 1 - n) with 0 by (simpl; lia).
    destruct fuel as [|fuel]; [done|].
    rewrite zip_star_unfold by done.
    by rewrite heads_of_drops_short by (simpl; lia).
  - destruct fuel as [|fuel]; [simpl in Hfuel; lia|].
    rewrite zip_star_unfold by done.
    destruct (decide (n ≤ length (x :: s))) as [Hle|Hgt].
    + simpl in Hle, Hfuel.
      rewrite heads_of_drops by (simpl; lia).
      rewrite tails_of_drops, IH by lia.
      replace (length (x :: s) + 1 - n) with (S (length s + 1 - n))
        by (simpl; lia).
      cbn [seq fmap list_fmap]. f_equal.
      rewrite <- fmap_S_seq, <- list_fmap_compose. done.
    + simpl in Hgt.
      rewrite heads_of_drops_short by (simpl; lia).
      by replace (length (x :: s) + 1 - n) with 0 by (simpl; lia).
Qed.

Lemma ngrams_short s n m : length s < m → ngrams s n m = [].
Proof.
  intros H. unfold ngrams.
  by destruct (Nat.ltb_spec (length s) m); [|lia].
Qed.

Lemma ngrams_single s n m :
  m ≤ length s → length s < n → ngrams s n m = [s].
Proof.
  intros H1 H2. unfold ngrams.
  destruct (Nat.ltb_spec (length s) m); [lia|].
  by destruct (Nat.ltb_spec (length s) n); [|lia].
Qed.

Lemma ngrams_windows s n m :
  1 ≤ n → m ≤ length s → n ≤ length s →
  ngrams s n m = (λ i, take n (drop i s)) <$> seq 0 (length s - n + 1).
Proof.
  intros H0 H1 H2. unfold ngrams.
  destruct (Nat.ltb_spec (length s) m); [lia|].
  destruct (Nat.ltb_spec (length s) n); [lia|].
  cbv zeta. rewrite zip_star_drops by lia.
  by replace (length s + 1 - n) with (length s - n + 1) by lia.
Qed.
End Ngrams.
End TokenizationFacts.

(** ** Shingles *)

Module ShingleFacts.
Import Str Bytes Tokenization MinHash StrFacts TokenizationFacts.

Lemma ngrams_zero {A} (s : list A) m : ngrams s 0 m = [].
Proof.
  unfold ngrams. destruct (length s <? m); [done|].
  simpl. by destruct (length s).
Qed.

(** Every n-gram is a window of the sequence: [n] consecutive items, or
    the whole sequence when it is shorter than [n]. *)
Lemma ngrams_window {A} (s : list A) n m w :
  w ∈ ngrams s n m →
  ∃ i, w = take n (drop i s) ∧ length w = Nat.min n (length s).
Proof.
  intros Hw. destruct n as [|n]; [by rewrite ngrams_zero in Hw; inversion Hw|].
  destruct (decide (length s < m)) as [Hm|Hm].
  { rewrite ngrams_short in Hw by done. inversion Hw. }
  destruct (decide (length s < S n)) as [Hn|Hn].
  - rewrite ngrams_single in Hw by lia. apply list_elem_of_singleton in Hw as ->.
    exists 0. rewrite drop_0, take_ge by lia. split; [done|lia].
  - rewrite ngrams_windows in Hw by lia.
    apply list_elem_of_fmap in Hw as (i & -> & Hi). apply elem_of_seq in Hi.
    exists i. split; [done|]. rewrite length_take, length_drop. lia.
Qed.

(** C7.  The shingler.  For a token sequence of length [L], a window
    size [n >= 1] and a guard [m]: when [L < m] there is no n-gram and
    the shingle set is empty; when [m <= L < n] the one n-gram is the
    whole sequence and the one shingle is its rendering; otherwise the
    n-grams are the [L - n + 1] windows of [n] consecutive tokens, in
    order, and the shingle set holds exactly their renderings.  The set
    has no duplicates, and the iteration that feeds the fingerprint meets
    each of its members once. *)
Theorem shingler_cases `{!RuntimeOk rt} (tokens : list str) (n m : nat) :
  1 ≤ n →
  (length tokens < m →
     ngrams tokens n m = [] ∧ shingle_set tokens n m = []) ∧
  (m ≤ length tokens → length tokens < n →
     ngrams tokens n m = [tokens] ∧
     shingle_set tokens n m = [join [space] tokens]) ∧
  (m ≤ length tokens → n ≤ length tokens →
     ngrams tokens n m
       = (λ i, take n (drop i tokens)) <$> seq 0 (length tokens - n + 1) ∧
     length (ngrams tokens n m) = length tokens - n + 1 ∧
     ∀ s, s ∈ shingle_set tokens n m ↔
          ∃ i, i < length tokens - n + 1 ∧
               s = join [space] (take n (drop i tokens))) ∧
  NoDup (shingle_set tokens n m) ∧
  NoDup (iter_str_set (shingle_set tokens n m)) ∧
  (∀ s, s ∈ iter_str_set (shingle_set tokens n m) ↔
        s ∈ shingle_set tokens n m).
Proof.
  intros Hn. unfold shingle_set. repeat split.
  - by apply ngrams_short.
  - by rewrite ngrams_short.
  - by apply ngrams_single.
  - by rewrite ngrams_single.
  - by apply ngrams_windows.
  - rewrite ngrams_windows by done. by rewrite length_fmap, length_seq.
  - rewrite elem_of_remove_dups, ngrams_windows by done.
    intros (w & -> & (i & -> & Hi%elem_of_seq)%list_elem_of_fmap)%list_elem_of_fmap.
    exists i. split; [lia|done].
  - intros (i & Hi & ->). rewrite elem_of_remove_dups, ngrams_windows by done.
    apply list_elem_of_fmap. eexists. split; [done|].
    apply list_elem_of_fmap. exists i. split; [done|]. apply elem_of_seq. lia.
  - apply NoDup_remove_dups.
  - rewrite iter_str_set_perm. apply NoDup_remove_dups.
  - by rewrite iter_str_set_perm.
  - by rewrite iter_str_set_perm.
Qed.

Lemma shingler_cases_witness :
  RuntimeOk forward_runtime ∧ 1 ≤ 2 ∧
  length (ngrams (of_string <$> ["a"; "b"; "a"; "b"; "a"; "b"]%string) 2 5)
  = 6 - 2 + 1.
Proof.
  split; [exact forward_runtime_ok|]. split; [lia|].
  destruct (@shingler_cases forward_runtime forward_runtime_ok
              (of_string <$> ["a"; "b"; "a"; "b"; "a"; "b"]%string) 2 5)
    as (_ & _ & H & _); [lia|].
  destruct H as (_ & H & _); [vm_compute; lia..|]. exact H.
Defined.

(** Every shingle is a rendered window of the tokens of the split. *)
Lemma shingles_window (content : str) (n : nat) (s : str) :
  s ∈ shingles content n →
  ∃ w i, w = take n (drop i (split content)) ∧
         length w = Nat.min n (length (split content)) ∧
         s = join [space] w.
Proof.
  unfold shingles, shingle_set. rewrite elem_of_remove_dups.
  intros (w & -> & Hw)%list_elem_of_fmap.
  destruct (ngrams_window _ _ _ _ Hw) as (i & Hi & Hlen). by exists w, i.
Qed.

(** C9, amended.  Every shingle the fuzzy engine emits for a content
    string is a window of consecutive tokens of the regex split ([n] of
    them, or all of them when there are at least 5 but fewer than [n]),
    joined by one ASCII space between neighbours.  The tokens hold
    characters of [A-Za-z0-9_] only, so the spaces of the shingle are its
    separators, one less than it has tokens.  The split keeps the empty
    tokens next to leading, trailing and consecutive delimiters: the
    shingle is free of leading, trailing and doubled spaces when none of
    its tokens is empty, and is not when it has at least two tokens and
    one of them is empty. *)
Theorem shingle_rendering (content : str) (n : nat) (s : str) :
  s ∈ shingles content n →
  ∃ w i,
    w = take n (drop i (split content)) ∧
    length w = Nat.min n (length (split content)) ∧
    5 ≤ length (split content) ∧
    s = join [space] w ∧
    Forall (λ t, forallb is_word t = true) w ∧
    count_spaces s = length w - 1 ∧
    (Forall (λ t, t ≠ []) w → well_spaced s = true) ∧
    (2 ≤ length w → Exists (λ t, t = []) w → well_spaced s = false).
Proof.
  intros Hs. destruct (shingles_window _ _ _ Hs) as (w & i & Hw & Hlen & ->).
  exists w, i.
  assert (Hword : Forall (λ t, forallb is_word t = true) w).
  { subst w. apply Forall_take, Forall_drop, split_tokens_word. }
  assert (Hfree : Forall space_free w).
  { eapply Forall_impl; [exact Hword|]. apply word_space_free. }
  repeat split; try done.
  - destruct (decide (5 ≤ length (split content))) as [|Hshort]; [done|].
    unfold shingles, shingle_set in Hs.
    rewrite ngrams_short in Hs by lia. inversion Hs.
  - by apply join_count_spaces.
  - by apply join_well_spaced.
  - by apply join_ill_spaced.
Qed.

Lemma shingle_rendering_witness :
  of_string "a b c d e f" ∈ shingles (of_string "a b c d e f g") 6 ∧
  ∃ w, length w = 6 ∧ of_string "a b c d e f" = join [space] w.
Proof.
  assert (H : of_string "a b c d e f" ∈ shingles (of_string "a b c d e f g") 6)
    by (vm_compute; apply list_elem_of_In; simpl; tauto).
  split; [exact H|].
  destruct (shingle_rendering _ _ _ H) as (w & i & _ & Hlen & _ & Hs & _).
  exists w. split; [exact Hlen|exact Hs].
Defined.

(** C9 as stated fails: the content [" a b c d"] splits into the five
    tokens [""], ["a"], ["b"], ["c"], ["d"], and its only shingle for
    [n = 5] starts with a space. *)
Lemma shingle_leading_space :
  shingles (of_string " a b c d") 5 = [of_string " a b c d"] ∧
  leading_space (of_string " a b c d") = true ∧
  well_spaced (of_string " a b c d") = false.
Proof. by vm_compute. Qed.

End ShingleFacts.

(** ** The exact-hash engine *)

Module ExactFacts.
Import Str Bytes ExactHash.

Section Engine.
Context {digest : Type} `{EqDecision digest}.
Variable hash_func : list byte → digest.

(** Three records in shards of two: [NUM_SHARDS] is 2, the shards are
    records 0-1 and record 2, and the lambda hands record 2 the index
    [1 * 1 + 0 = 1]. *)
Lemma exact_flags_aba :
  exact_flags hash_func 2 (of_string <$> ["a"; "b"; "a"]%string)
  = [false; true; false].
Proof.
  unfold exact_flags, process_shard, mp_exact_finder. cbn.
  repeat (case_decide; cbn); try done; set_solver.
Qed.

Lemma exact_dedup_aba :
  exact_dedup hash_func 2 (of_string <$> ["a"; "b"; "a"]%string)
  = of_string <$> ["a"; "a"]%string.
Proof. unfold exact_dedup. rewrite exact_flags_aba. reflexivity. Qed.

Lemma exact_dedup_aa :
  exact_dedup hash_func 2 (of_string <$> ["a"; "a"]%string)
  = of_string <$> ["a"]%string.
Proof.
  unfold exact_dedup, exact_flags, process_shard, mp_exact_finder. cbn.
  repeat (case_decide; cbn); try done; set_solver.
Qed.

(** C1, at a failing input.  On the corpus ["a"; "b"; "a"] with
    [batch_size = 2] the engine leaves the flags [false; true; false]:
    the records kept are 0 and 2, two records with the same digest,
    and record 1, the only one with its digest, is dropped.  Whatever
    [hash_func] is. *)
Theorem exact_flags_misplaced :
  let ds := of_string <$> ["a"; "b"; "a"]%string in
  let flags := exact_flags hash_func 2 ds in
  flags = [false; true; false] ∧
  exact_dedup hash_func 2 ds = of_string <$> ["a"; "a"]%string ∧
  (hash_func (encode_utf8 (ds !!! 0)) = hash_func (encode_utf8 (ds !!! 2)) ∧
   flags !! 0 = Some false ∧ flags !! 2 = Some false) ∧
  (flags !! 1 = Some true ∧ ds !!! 1 ≠ ds !!! 0).
Proof.
  cbv zeta. rewrite exact_flags_aba, exact_dedup_aba. by repeat split.
Qed.

(** C6, at a failing input.  The exact engine run on ["a"; "b"; "a"] with
    [batch_size = 2] gives ["a"; "a"]; run on that output, with the same
    configuration, it gives ["a"]. *)
Theorem exact_dedup_not_idempotent :
  let ds := of_string <$> ["a"; "b"; "a"]%string in
  exact_dedup hash_func 2 ds = of_string <$> ["a"; "a"]%string ∧
  exact_dedup hash_func 2 (exact_dedup hash_func 2 ds)
  = of_string <$> ["a"]%string ∧
  exact_dedup hash_func 2 (exact_dedup hash_func 2 ds)
  ≠ exact_dedup hash_func 2 ds.
Proof.
  cbv zeta. rewrite exact_dedup_aba, exact_dedup_aa. done.
Qed.

End Engine.
End ExactFacts.

(** ** Byte encodings *)

Module BytesFacts.
Import Str Bytes.
Local Open Scope Z_scope.

Lemma length_le_bytes w v : length (le_bytes w v) = w.
Proof. revert v. induction w as [|w IH]; intros v; simpl; [done|]. by rewrite IH. Qed.

Lemma length_be_bytes w v : length (be_bytes w v) = w.
Proof. induction w as [|w IH]; simpl; [done|]. by rewrite IH. Qed.

Lemma be_bytes_snoc w v :
  be_bytes (S w) v = be_bytes w (Z.shiftr v 8) ++ [byte_of_Z v].
Proof.
  induction w as [|w IH].
  - simpl. by rewrite Z.shiftr_0_r.
  - change (be_bytes (S (S w)) v)
      with (byte_of_Z (Z.shiftr v (8 * Z.of_nat (S w))) :: be_bytes (S w) v).
    rewrite IH. cbn [be_bytes app]. f_equal.
    rewrite Z.shiftr_shiftr by lia. do 2 f_equal. lia.
Qed.

(** Reversing the little-endian bytes gives the big-endian bytes. *)
Lemma rev_le_bytes w v : rev (le_bytes w v) = be_bytes w v.
Proof.
  revert v. induction w as [|w IH]; intros v; [done|].
  rewrite be_bytes_snoc. cbn [le_bytes rev]. by rewrite IH.
Qed.

Lemma byte_of_Z_0 : byte_of_Z 0 = x00.
Proof. reflexivity. Qed.

(** The upper half of the 8 bytes of a 32-bit value is zero. *)
Lemma be_bytes_8_of_32 v :
  0 ≤ v < 2 ^ 32 →
  be_bytes 8 v = [x00; x00; x00; x00] ++ be_bytes 4 v.
Proof.
  intros Hv.
  assert (Hhi : ∀ k, 32 ≤ k → Z.shiftr v k = 0).
  { intros k Hk. rewrite Z.shiftr_div_pow2 by lia. apply Z.div_small.
    split; [lia|]. apply Z.lt_le_trans with (2 ^ 32); [lia|].
    apply Z.pow_le_mono_r; lia. }
  cbn [be_bytes app]. rewrite !Hhi by lia. by rewrite byte_of_Z_0.
Qed.

Lemma Z_of_byte_range b : 0 ≤ Z_of_byte b < 256.
Proof.
  unfold Z_of_byte. pose proof (Byte.to_N_bounded b). lia.
Qed.

Lemma le_decode_range data : 0 ≤ le_decode data < 256 ^ Z.of_nat (length data).
Proof.
  induction data as [|b data IH].
  - simpl. lia.
  - cbn [le_decode length]. rewrite Nat2Z.inj_succ, Z.pow_succ_r by lia.
    pose proof (Z_of_byte_range b). lia.
Qed.

Lemma length_bind_const {A B} (f : A → list B) (l : list A) n :
  (∀ x, length (f x) = n) → length (l ≫= f) = (length l * n)%nat.
Proof.
  intros Hf. induction l as [|x l IH]; [done|].
  cbn. rewrite length_app, Hf, IH. lia.
Qed.

End BytesFacts.

(** ** The MinHash fingerprint *)

Module MinHashFacts.
Import Str Bytes Tokenization MinHash BytesFacts.
Local Open Scope Z_scope.

Lemma MAX_HASH_eq : MAX_HASH = 2 ^ 32 - 1.
Proof. reflexivity. Qed.

Lemma MERSENNE_PRIME_eq : MERSENNE_PRIME = 2 ^ 61 - 1.
Proof. reflexivity. Qed.

Lemma MAX_HASH_ones : MAX_HASH = Z.ones 32.
Proof. reflexivity. Qed.

Lemma land_MAX_HASH z : Z.land z MAX_HASH = z mod 2 ^ 32.
Proof. rewrite MAX_HASH_ones. apply Z.land_ones. lia. Qed.

Lemma permute_range h a b : 0 ≤ permute h a b ≤ MAX_HASH.
Proof.
  unfold permute. rewrite land_MAX_HASH, MAX_HASH_eq.
  pose proof (Z.mod_pos_bound (add64 (mul64 h a) b mod MERSENNE_PRIME) (2 ^ 32)).
  lia.
Qed.

(** The two wrap-arounds amount to one reduction modulo [2^64]. *)
Lemma add64_mul64 h a b : add64 (mul64 h a) b = (h * a + b) mod 2 ^ 64.
Proof. unfold add64, mul64, wrap64. by rewrite Zplus_mod_idemp_l. Qed.

(** C3, amended.  For a 32-bit shingle hash [h] and a permutation pair
    [(a, b)] with [a] in [[1, P)] and [b] in [[0, P)], [P = 2^61 - 1], the
    value [embed_func] computes for the slot is
    [(((h * a + b) mod 2^64) mod P) & (2^32 - 1)]: the product and the sum
    are taken in wrapping unsigned 64-bit arithmetic before the reduction
    modulo [P].  It is a 32-bit value, and it is the exact
    [((h * a + b) mod P) & (2^32 - 1)] whenever [h * a + b < 2^64]. *)
Theorem permute_wraps (h a b : Z) :
  0 ≤ h < 2 ^ 32 → 1 ≤ a < MERSENNE_PRIME → 0 ≤ b < MERSENNE_PRIME →
  permute h a b
  = Z.land (((h * a + b) mod 2 ^ 64) mod MERSENNE_PRIME) (2 ^ 32 - 1) ∧
  0 ≤ permute h a b < 2 ^ 32 ∧
  (h * a + b < 2 ^ 64 →
   permute h a b = Z.land ((h * a + b) mod MERSENNE_PRIME) (2 ^ 32 - 1)).
Proof.
  intros Hh Ha Hb. split; [|split].
  - unfold permute. by rewrite add64_mul64.
  - pose proof (permute_range h a b). rewrite MAX_HASH_eq in *. lia.
  - intros Hsmall. unfold permute. rewrite add64_mul64.
    rewrite (Z.mod_small (h * a + b)); [done|]. nia.
Qed.

Lemma permute_wraps_witness :
  (0 ≤ 3 < 2 ^ 32 ∧ 1 ≤ 5 < MERSENNE_PRIME ∧ 0 ≤ 7 < MERSENNE_PRIME) ∧
  permute 3 5 7 = 22.
Proof.
  assert (H3 : 0 ≤ 3 < 2 ^ 32) by (split; [lia|reflexivity]).
  assert (H5 : 1 ≤ 5 < MERSENNE_PRIME) by (split; [lia|reflexivity]).
  assert (H7 : 0 ≤ 7 < MERSENNE_PRIME) by (split; [lia|reflexivity]).
  split; [done|].
  destruct (permute_wraps 3 5 7 H3 H5 H7) as (_ & _ & ->);
    [reflexivity|reflexivity].
Defined.

(** C3 as stated fails: for [h = 16], [a = 2^60], [b = 0] the product
    is [2^64], which wraps to 0 before the modulo is taken; the exact
    value is [2^64 mod (2^61 - 1) = 8]. *)
Lemma permute_wraps_before_modulo :
  (0 ≤ 16 < 2 ^ 32 ∧ 1 ≤ 2 ^ 60 < 2 ^ 61 - 1 ∧ 0 ≤ 0 < 2 ^ 61 - 1) ∧
  permute 16 (2 ^ 60) 0 = 0 ∧
  Z.land ((16 * 2 ^ 60 + 0) mod (2 ^ 61 - 1)) (2 ^ 32 - 1) = 8 ∧
  2 ^ 64 ≤ 16 * 2 ^ 60 + 0.
Proof. repeat split; try reflexivity; by vm_compute. Qed.

Section WithRuntime.
Context {rt : Runtime}.

Lemma zip_with_min_swap (x y acc : list Z) :
  zip_with Z.min x (zip_with Z.min y acc)
  = zip_with Z.min y (zip_with Z.min x acc).
Proof.
  revert y acc. induction x as [|u x IH]; intros [|v y] [|w acc]; try done.
  cbn. rewrite IH. f_equal. lia.
Qed.

(** The column-wise minimum does not depend on the order of the rows. *)
Lemma column_min_perm (init : list Z) (rows1 rows2 : list (list Z)) :
  rows1 ≡ₚ rows2 →
  foldr (zip_with Z.min) init rows1 = foldr (zip_with Z.min) init rows2.
Proof.
  induction 1 as [|r ? ? ? IH|r1 r2 ?|? ? ? ? IH1 ? IH2]; cbn.
  - done.
  - by rewrite IH.
  - apply zip_with_min_swap.
  - by rewrite IH1.
Qed.

Lemma signature_perm tokens1 tokens2 num_perm permutations :
  tokens1 ≡ₚ tokens2 →
  signature tokens1 num_perm permutations
  = signature tokens2 num_perm permutations.
Proof.
  intros Hp. unfold signature. destruct permutations as [a b].
  apply column_min_perm. by rewrite Hp.
Qed.

Lemma signature_nil num_perm permutations :
  signature [] num_perm permutations = replicate num_perm MAX_HASH.
Proof. unfold signature. by destruct permutations. Qed.

Lemma signature_cons t tokens num_perm a b :
  signature (t :: tokens) num_perm (a, b)
  = zip_with Z.min (zip_with (permute (sha1_hash32 (encode_utf8 t))) a b)
      (signature tokens num_perm (a, b)).
Proof. done. Qed.

Lemma signature_length tokens num_perm a b :
  length a = num_perm → length b = num_perm →
  length (signature tokens num_perm (a, b)) = num_perm.
Proof.
  intros Ha Hb. induction tokens as [|t tokens IH].
  - by rewrite signature_nil, length_replicate.
  - rewrite signature_cons, !length_zip_with, IH. lia.
Qed.

(** Every entry of a signature is a 32-bit value. *)
Lemma signature_range tokens num_perm a b :
  Forall (λ v, 0 ≤ v ≤ MAX_HASH) (signature tokens num_perm (a, b)).
Proof.
  induction tokens as [|t tokens IH].
  - rewrite signature_nil. apply Forall_replicate. by vm_compute.
  - rewrite signature_cons. apply Forall_lookup. intros i v Hv.
    apply lookup_zip_with_Some in Hv as (x & y & -> & Hx & Hy).
    apply lookup_zip_with_Some in Hx as (u & w & -> & _ & _).
    pose proof (permute_range (sha1_hash32 (encode_utf8 t)) u w).
    pose proof (proj1 (Forall_lookup _ _) IH i y Hy). simpl in *. lia.
Qed.

(** Slot [i] of a signature: the least permuted hash of the tokens, or
    [MAX_HASH]. *)
Lemma signature_lookup tokens num_perm a b i ai bi :
  (i < num_perm)%nat → a !! i = Some ai → b !! i = Some bi →
  signature tokens num_perm (a, b) !! i
  = Some (foldr Z.min MAX_HASH
            ((λ t, permute (sha1_hash32 (encode_utf8 t)) ai bi) <$> tokens)).
Proof.
  intros Hi Ha Hb. induction tokens as [|t tokens IH].
  - rewrite signature_nil. by apply lookup_replicate_2.
  - rewrite signature_cons, !lookup_zip_with, Ha, Hb, IH. done.
Qed.

Lemma HASH_RANGES_lookup B R i :
  (i < B)%nat →
  HASH_RANGES B R !! i = Some ((i * R)%nat, ((i + 1) * R)%nat).
Proof.
  intros Hi. unfold HASH_RANGES.
  rewrite list_lookup_fmap, lookup_seq_lt by done. done.
Qed.

Lemma byteswap_bytes_be (arr : list Z) :
  byteswap_bytes arr = arr ≫= be_bytes 8.
Proof.
  unfold byteswap_bytes. induction arr as [|v arr IH]; [done|].
  by rewrite !bind_cons, IH, rev_le_bytes.
Qed.

Lemma embed_func_keys content idx num_perm n hashranges perms :
  (embed_func content idx num_perm n hashranges perms).1
  = (λ '(start, stop),
       slice (signature (iter_str_set (shingles content n)) num_perm perms)
             start stop ≫= be_bytes 8) <$> hashranges.
Proof.
  unfold embed_func. cbn [fst]. apply list_fmap_ext.
  intros _ [start stop] _. apply byteswap_bytes_be.
Qed.

Lemma embed_func_id content idx num_perm n hashranges perms :
  (embed_func content idx num_perm n hashranges perms).2 = idx.
Proof. done. Qed.

End WithRuntime.

(** The band keys depend on the runtime through the digest only, and on
    the content through its shingle set only. *)
Lemma signature_digest_ext (rt1 rt2 : Runtime) tokens num_perm perms :
  (∀ data, @sha1_digest rt1 data = @sha1_digest rt2 data) →
  @signature rt1 tokens num_perm perms = @signature rt2 tokens num_perm perms.
Proof.
  intros Hd. unfold signature. destruct perms as [a b]. do 2 f_equal.
  apply list_fmap_ext. intros _ t _. unfold sha1_hash32. by rewrite Hd.
Qed.

Lemma band_keys_congruent (rt1 rt2 : Runtime)
    `{!RuntimeOk rt1, !RuntimeOk rt2}
    content1 content2 idx1 idx2 num_perm n hashranges perms :
  (∀ data, @sha1_digest rt1 data = @sha1_digest rt2 data) →
  (∀ s, s ∈ shingles content1 n ↔ s ∈ shingles content2 n) →
  (@embed_func rt1 content1 idx1 num_perm n hashranges perms).1
  = (@embed_func rt2 content2 idx2 num_perm n hashranges perms).1.
Proof.
  intros Hd Hs. rewrite !embed_func_keys.
  rewrite (signature_digest_ext rt1 rt2) by done.
  rewrite (signature_perm (rt:=rt2) (@iter_str_set rt1 (shingles content1 n))
             (@iter_str_set rt2 (shingles content2 n))); [done|].
  rewrite !iter_str_set_perm.
  apply NoDup_Permutation; [apply NoDup_remove_dups..|done].
Qed.

(** The shingle hashes are 32-bit values. *)
Lemma sha1_hash32_range `{!RuntimeOk rt} data :
  0 ≤ sha1_hash32 data < 2 ^ 32.
Proof.
  unfold sha1_hash32.
  pose proof (le_decode_range (take 4 (sha1_digest data))) as Hr.
  rewrite length_take, sha1_digest_length in Hr.
  by replace (Z.of_nat (4 `min` 20)) with 4 in Hr by by vm_compute.
Qed.

Section BandKeys.
Context {rt : Runtime}.

(** C4, amended.  With permutation arrays of [num_perm] entries and
    [B * R <= num_perm], [embed_func] produces [B] band keys, and band
    key [i] is the concatenation of the big-endian encodings, 8 bytes
    each, of the [R] consecutive signature entries of band [i] (the
    signature is an array of [uint64]); it is [8 * R] bytes long.  Every
    entry is a 32-bit value, so its 8 bytes are four zero bytes followed
    by its 4-byte big-endian encoding. *)
Theorem band_key_encoding content idx num_perm n B R a b i :
  length a = num_perm → length b = num_perm →
  (B * R ≤ num_perm)%nat → (i < B)%nat →
  let Hs := (embed_func content idx num_perm n (HASH_RANGES B R) (a, b)).1 in
  let hashvalues :=
    signature (iter_str_set (shingles content n)) num_perm (a, b) in
  let entries := take R (drop (i * R) hashvalues) in
  length Hs = B ∧
  Hs !! i = Some (entries ≫= be_bytes 8) ∧
  length entries = R ∧
  length (entries ≫= be_bytes 8) = (8 * R)%nat ∧
  Forall (λ v, 0 ≤ v < 2 ^ 32 ∧
               be_bytes 8 v = [x00; x00; x00; x00] ++ be_bytes 4 v) entries.
Proof.
  intros Ha Hb HBR Hi. cbv zeta.
  assert (Hlen : length (take R (drop (i * R)
            (signature (iter_str_set (shingles content n)) num_perm (a, b))))
          = R).
  { rewrite length_take, length_drop, signature_length by done. nia. }
  split; [|split; [|split; [|split]]].
  - rewrite embed_func_keys, length_fmap. unfold HASH_RANGES.
    by rewrite length_fmap, length_seq.
  - rewrite embed_func_keys, list_lookup_fmap, HASH_RANGES_lookup by done.
    cbn. unfold slice. do 3 f_equal. lia.
  - exact Hlen.
  - rewrite (length_bind_const _ _ 8), Hlen; [lia|]. intros v. apply length_be_bytes.
  - apply Forall_take, Forall_drop.
    eapply Forall_impl; [apply signature_range|].
    intros v Hv. cbn in Hv. rewrite MAX_HASH_eq in Hv.
    split; [lia|]. apply be_bytes_8_of_32. lia.
Qed.

End BandKeys.

Lemma band_key_encoding_witness :
  (length [1; 2] = 2%nat ∧ length [3; 4] = 2%nat ∧ (2 * 1 ≤ 2)%nat ∧ (1 < 2)%nat) ∧
  length (@embed_func forward_runtime (of_string "a b c d e") 0 2 3
            (HASH_RANGES 2 1) ([1; 2], [3; 4])).1 = 2%nat.
Proof.
  split; [repeat split; lia|].
  apply (@band_key_encoding forward_runtime (of_string "a b c d e") 0 2 3 2 1
           [1; 2] [3; 4] 1); [reflexivity|reflexivity|lia|lia].
Defined.

(** C4 as stated fails: with one permutation and one band of one row,
    the band key of the empty content is the 8 bytes of the [uint64]
    entry [2^32 - 1], not 4 bytes. *)
Lemma band_key_eight_bytes :
  (@embed_func forward_runtime [] 0 1 3 (HASH_RANGES 1 1) ([1], [0])).1
  = [[x00; x00; x00; x00; xff; xff; xff; xff]] ∧
  length [x00; x00; x00; x00; xff; xff; xff; xff] ≠ (4 * 1)%nat.
Proof. split; [by vm_compute|]. cbn. lia. Qed.

End MinHashFacts.

(** ** Union-find *)

Module UnionFindFacts.
Import UnionFind.
Implicit Types (p : gmap nat nat) (x y z r : nat).

#[local] Arguments root : simpl never.
#[local] Arguments find : simpl never.

Lemma well_formed_empty : well_formed empty.
Proof. intros x y Hxy. unfold empty in Hxy. by rewrite lookup_empty in Hxy. Qed.

Lemma parent_le p x : well_formed p → default x (p !! x) ≤ x.
Proof.
  intros Hwf. destruct (p !! x) as [y|] eqn:E; simpl; [by eapply Hwf|done].
Qed.

Lemma well_formed_insert p x y :
  well_formed p → y ≤ x → well_formed (<[x := y]> p).
Proof.
  intros Hwf Hle a b. rewrite lookup_insert. case_decide; [|apply Hwf].
  intros [= <-]. by subst.
Qed.

Lemma root_rec_S p fuel x :
  root_rec (S fuel) p x
  = if decide (default x (p !! x) = x) then x
    else root_rec fuel p (default x (p !! x)).
Proof. done. Qed.

(** With a well-formed map the fuel [S x] is enough: more changes
    nothing. *)
Lemma root_rec_fuel p fuel1 fuel2 x :
  well_formed p → x < fuel1 → x < fuel2 →
  root_rec fuel1 p x = root_rec fuel2 p x.
Proof.
  intros Hwf. revert fuel2 x.
  induction fuel1 as [|fuel1 IH]; intros [|fuel2] x H1 H2; try lia.
  rewrite !root_rec_S. case_decide; [done|].
  pose proof (parent_le p x Hwf). apply IH; lia.
Qed.

Lemma root_unfold p x :
  well_formed p →
  root p x = if decide (default x (p !! x) = x) then x
             else root p (default x (p !! x)).
Proof.
  intros Hwf. unfold root. rewrite root_rec_S. case_decide; [done|].
  pose proof (parent_le p x Hwf). apply root_rec_fuel; [done|lia..].
Qed.

Lemma root_self p x : well_formed p → default x (p !! x) = x → root p x = x.
Proof. intros Hwf Hx. rewrite root_unfold by done. by rewrite decide_True. Qed.

Lemma root_step p x :
  well_formed p → default x (p !! x) ≠ x →
  root p x = root p (default x (p !! x)).
Proof. intros Hwf Hx. rewrite root_unfold by done. by rewrite decide_False. Qed.

(** Strong induction along the parents. *)
Lemma parent_ind p :
  well_formed p → ∀ P : nat → Prop,
  (∀ x, default x (p !! x) = x → P x) →
  (∀ x, default x (p !! x) ≠ x → P (default x (p !! x)) → P x) →
  ∀ x, P x.
Proof.
  intros Hwf P Hroot Hstep x. induction (lt_wf x) as [x _ IH].
  destruct (decide (default x (p !! x) = x)) as [Hx|Hx]; [by apply Hroot|].
  apply Hstep; [done|]. apply IH. pose proof (parent_le p x Hwf). lia.
Qed.

Lemma root_le p x : well_formed p → root p x ≤ x.
Proof.
  intros Hwf. induction x using (parent_ind p Hwf).
  - by rewrite root_self.
  - rewrite root_step by done. pose proof (parent_le p x Hwf). lia.
Qed.

Lemma root_is_root p x :
  well_formed p → default (root p x) (p !! root p x) = root p x.
Proof.
  intros Hwf. induction x using (parent_ind p Hwf).
  - by rewrite root_self.
  - by rewrite root_step.
Qed.

Lemma root_root p x : well_formed p → root p (root p x) = root p x.
Proof. intros Hwf. apply root_self; [done|]. by apply root_is_root. Qed.

Lemma root_empty x : root empty x = x.
Proof. apply root_self; [apply well_formed_empty|]. unfold empty. by rewrite lookup_empty. Qed.

(** Hanging an id directly under its root changes no root. *)
Lemma root_compress p x y :
  well_formed p → root (<[x := root p x]> p) y = root p y.
Proof.
  intros Hwf.
  assert (Hwf' : well_formed (<[x := root p x]> p))
    by (apply well_formed_insert; [done|by apply root_le]).
  induction (lt_wf y) as [y _ IH].
  rewrite (root_unfold _ y Hwf').
  destruct (decide (y = x)) as [->|Hyx].
  - rewrite lookup_insert_eq. simpl.
    destruct (decide (root p x = x)) as [Hr|Hr]; [done|].
    rewrite IH by (pose proof (root_le p x Hwf); lia).
    by apply root_root.
  - rewrite lookup_insert_ne by done. rewrite (root_unfold p y Hwf).
    case_decide; [done|].
    apply IH. pose proof (parent_le p y Hwf). lia.
Qed.

(** [find] returns the root, keeps the map well formed and keeps every
    root; it never runs out of depth. *)
Lemma find_rec_spec p fuel x :
  well_formed p → x < fuel →
  ∃ p', find_rec fuel p x = Some (p', root p x) ∧
        well_formed p' ∧ ∀ y, root p' y = root p y.
Proof.
  intros Hwf. revert x. induction fuel as [|fuel IH]; intros x Hx; [lia|].
  cbn. destruct (decide (default x (p !! x) = x)) as [Hpx|Hpx].
  - exists p. by rewrite root_self.
  - pose proof (parent_le p x Hwf).
    destruct (IH (default x (p !! x))) as (p1 & -> & Hwf1 & Hroot1); [lia|].
    cbn. rewrite <- root_step by done.
    eexists. split; [done|].
    rewrite <- (Hroot1 x). split.
    + apply well_formed_insert; [done|]. by apply root_le.
    + intros y. by rewrite root_compress.
Qed.

Lemma find_spec p x :
  well_formed p →
  ∃ p', find p x = Some (p', root p x) ∧
        well_formed p' ∧ ∀ y, root p' y = root p y.
Proof. intros Hwf. apply find_rec_spec; [done|lia]. Qed.

(** Hanging a root under a smaller root. *)
Lemma root_link p hi lo z :
  well_formed p → lo < hi →
  default hi (p !! hi) = hi → default lo (p !! lo) = lo →
  root (<[hi := lo]> p) z = if decide (root p z = hi) then lo else root p z.
Proof.
  intros Hwf Hlt Hhi Hlo.
  assert (Hwf' : well_formed (<[hi := lo]> p))
    by (apply well_formed_insert; [done|lia]).
  assert (Hlo' : root (<[hi := lo]> p) lo = lo).
  { apply root_self; [done|]. rewrite lookup_insert_ne by lia. done. }
  induction (lt_wf z) as [z _ IH].
  rewrite (root_unfold _ z Hwf').
  destruct (decide (z = hi)) as [->|Hz].
  - rewrite lookup_insert_eq. simpl.
    rewrite decide_False by lia. rewrite Hlo'.
    by rewrite (root_self p hi Hwf Hhi), decide_True.
  - rewrite lookup_insert_ne by done. rewrite (root_unfold p z Hwf).
    case_decide.
    + by rewrite decide_False.
    + apply IH. pose proof (parent_le p z Hwf). lia.
Qed.

Lemma union_spec p x y :
  well_formed p →
  ∃ p', union p x y = Some p' ∧ well_formed p' ∧
        ∀ z, root p' z
             = if decide (root p z = Nat.max (root p x) (root p y))
               then Nat.min (root p x) (root p y) else root p z.
Proof.
  intros Hwf. unfold union.
  destruct (find_spec p x Hwf) as (p1 & -> & Hwf1 & Hr1). cbn.
  destruct (find_spec p1 y Hwf1) as (p2 & -> & Hwf2 & Hr2). cbn.
  rewrite Hr1. case_decide as Hxy.
  - exists p2. split; [done|]. split; [done|]. intros z.
    rewrite Hr2, Hr1, <- Hxy, Nat.max_id, Nat.min_id. by case_decide.
  - eexists. split; [done|]. split.
    + apply well_formed_insert; [done|lia].
    + intros z. rewrite root_link; [by rewrite Hr2, Hr1|done|lia|..].
      * destruct (Nat.max_spec (root p x) (root p y)) as [[_ ->]|[_ ->]];
          rewrite <- ?Hr1, <- ?Hr2; by apply root_is_root.
      * destruct (Nat.min_spec (root p x) (root p y)) as [[_ ->]|[_ ->]];
          rewrite <- ?Hr1, <- ?Hr2; by apply root_is_root.
Qed.

End UnionFindFacts.

(** ** Clustering *)

Module ClusterFacts.
Import Str Bytes UnionFind MinHash UnionFindFacts.
Implicit Types (p uf : gmap nat nat) (x y z : nat).

#[local] Arguments root : simpl never.
#[local] Arguments find : simpl never.
#[local] Arguments union : simpl never.

Lemma extends_refl p : well_formed p → extends p p.
Proof. by repeat split. Qed.

Lemma extends_trans p1 p2 p3 : extends p1 p2 → extends p2 p3 → extends p1 p3.
Proof.
  intros (_ & Hs1 & Hl1) (Hwf & Hs2 & Hl2). split; [done|]. split.
  - intros x y Hxy. by apply Hs2, Hs1.
  - intros z. etrans; [apply Hl2|apply Hl1].
Qed.

Lemma union_extends p x y :
  well_formed p →
  ∃ p', union p x y = Some p' ∧ extends p p' ∧ root p' x = root p' y.
Proof.
  intros Hwf. destruct (union_spec p x y Hwf) as (p' & Hu & Hwf' & Hr).
  exists p'. split; [done|]. split; [split; [done|split]|].
  - intros a b Hab. by rewrite !Hr, Hab.
  - intros z. rewrite Hr. case_decide; lia.
  - rewrite !Hr. repeat case_decide; lia.
Qed.

(** A loop of steps that only merge. *)
Lemma foldl_extends {A} (step : gmap nat nat → A → option (gmap nat nat))
    (Q : A → gmap nat nat → Prop) (l : list A) p :
  (∀ p a, a ∈ l → well_formed p →
          ∃ p', step p a = Some p' ∧ extends p p' ∧ Q a p') →
  (∀ a p p', Q a p → extends p p' → Q a p') →
  well_formed p →
  ∃ p', foldl (λ o a, o ≫= λ p, step p a) (Some p) l = Some p' ∧
        extends p p' ∧ ∀ a, a ∈ l → Q a p'.
Proof.
  intros Hstep Hstable. revert p.
  induction l as [|a l IH]; intros p Hwf.
  - exists p. split; [done|]. split; [by apply extends_refl|].
    intros a Ha. inversion Ha.
  - destruct (Hstep p a) as (p1 & Hs & He1 & HQ); [left|done|].
    destruct (IH (λ p a Ha, Hstep p a (list_elem_of_further _ _ _ Ha)) p1)
      as (p' & Hf & He' & HQ'); [apply He1|].
    exists p'. split; [cbn; by rewrite Hs|]. split; [by eapply extends_trans|].
    intros b [->|Hb]%elem_of_cons; [by eapply Hstable|by apply HQ'].
Qed.

Lemma foldl_pointwise {A B} (f g : B → A → B) (l : list A) (b : B) :
  (∀ b a, f b a = g b a) → foldl f b l = foldl g b l.
Proof.
  intros Hfg. revert b. induction l as [|a l IH]; intros b; [done|].
  cbn. by rewrite Hfg, IH.
Qed.

Lemma foldl_bind_None {A B} (step : B → A → option B) (l : list A) :
  foldl (λ o a, o ≫= λ s, step s a) None l = None.
Proof. by induction l. Qed.

Section Driver.
Context `{!RuntimeOk rt}.

Lemma union_cluster_spec uf cluster :
  well_formed uf →
  ∃ uf', union_cluster uf cluster = Some uf' ∧ extends uf uf' ∧
         ∀ x y, x ∈ cluster → y ∈ cluster → root uf' x = root uf' y.
Proof.
  intros Hwf. unfold union_cluster.
  destruct (Nat.leb_spec (length cluster) 1) as [Hlen|Hlen].
  - exists uf. split; [done|]. split; [by apply extends_refl|].
    intros x y Hx Hy. destruct cluster as [|a [|b c]]; [inversion Hx| |simpl in Hlen; lia].
    apply list_elem_of_singleton in Hx, Hy. by subst.
  - destruct (foldl_extends (λ uf x, union uf x (min_of cluster))
                (λ x uf, root uf x = root uf (min_of cluster))
                (iter_int_set cluster) uf) as (uf' & Hf & He & HQ); [| |done|].
    + intros p a _ Hp. by apply union_extends.
    + intros a p p' Hq (_ & Hs & _). by apply Hs.
    + exists uf'. split; [exact Hf|]. split; [done|].
      intros x y Hx Hy. transitivity (root uf' (min_of cluster));
        [|symmetry]; apply HQ; by rewrite iter_int_set_perm.
Qed.

(** A cluster of at most one id leaves the structure as it is. *)
Lemma union_cluster_small uf cluster :
  length cluster ≤ 1 → union_cluster uf cluster = Some uf.
Proof.
  intros Hlen. unfold union_cluster.
  by destruct (Nat.leb_spec (length cluster) 1); [|lia].
Qed.

Lemma union_table_spec uf (hashtable : table) :
  well_formed uf →
  ∃ uf', union_table (Some uf) hashtable = Some uf' ∧ extends uf uf' ∧
         ∀ cluster x y, cluster ∈ hashtable.*2 → x ∈ cluster → y ∈ cluster →
                        root uf' x = root uf' y.
Proof.
  intros Hwf. unfold union_table.
  destruct (foldl_extends union_cluster
              (λ cluster uf, ∀ x y, x ∈ cluster → y ∈ cluster →
                                    root uf x = root uf y)
              (hashtable.*2) uf) as (uf' & Hf & He & HQ); [| |done|].
  - intros p c _ Hp. by apply union_cluster_spec.
  - intros c p p' Hq (_ & Hs & _) x y Hx Hy. by apply Hs, Hq.
  - exists uf'. split; [exact Hf|]. split; [done|].
    intros c x y Hc. by apply HQ.
Qed.

Lemma union_table_bind o (hashtable : table) :
  union_table o hashtable = o ≫= λ uf, union_table (Some uf) hashtable.
Proof. destruct o; [done|]. apply foldl_bind_None. Qed.

Lemma cluster_tables_spec (tables : list table) :
  ∃ uf, cluster_tables tables = Some uf ∧ well_formed uf ∧
        ∀ hashtable cluster x y,
          hashtable ∈ tables → cluster ∈ hashtable.*2 →
          x ∈ cluster → y ∈ cluster → root uf x = root uf y.
Proof.
  unfold cluster_tables.
  destruct (foldl_extends (λ uf hashtable, union_table (Some uf) hashtable)
              (λ (hashtable : table) uf,
                 ∀ cluster x y, cluster ∈ hashtable.*2 → x ∈ cluster →
                                y ∈ cluster → root uf x = root uf y)
              tables empty) as (uf & Hf & He & HQ).
  - intros p t _ Hp. by apply union_table_spec.
  - intros t p p' Hq (_ & Hs & _) c x y Hc Hx Hy. by eapply Hs, Hq.
  - apply well_formed_empty.
  - exists uf. split; [|split; [apply He|]].
    + rewrite <- Hf. apply foldl_pointwise. intros o t. apply union_table_bind.
    + intros t c x y Ht. by apply HQ.
Qed.

Lemma find_clusters_spec uf ids :
  well_formed uf → find_clusters uf ids = Some (root uf <$> ids).
Proof.
  revert uf. induction ids as [|i ids IH]; intros uf Hwf; [done|].
  cbn. destruct (find_spec uf i Hwf) as (uf' & -> & Hwf' & Hr). cbn.
  rewrite IH by done. cbn. do 2 f_equal. apply list_fmap_ext. by intros.
Qed.

End Driver.
End ClusterFacts.

(** ** The fuzzy engine: clusters *)

Module FuzzyFacts.
Import Str Bytes UnionFind MinHash UnionFindFacts ClusterFacts.

#[local] Arguments root : simpl never.

Section Driver.
Context `{!RuntimeOk rt}.

Lemma cluster_ids_spec B R num_perm ngram batch_size perms ds :
  ∃ uf,
    cluster_tables
      (build_tables B batch_size (embed_all B R num_perm ngram perms ds))
    = Some uf ∧
    well_formed uf ∧
    cluster_ids B R num_perm ngram batch_size perms ds
    = Some (root uf <$> seq 0 (length ds)).
Proof.
  destruct (cluster_tables_spec
              (build_tables B batch_size (embed_all B R num_perm ngram perms ds)))
    as (uf & Huf & Hwf & _).
  exists uf. split; [done|]. split; [done|].
  unfold cluster_ids. rewrite Huf. cbn. by apply find_clusters_spec.
Qed.

Lemma roots_lookup uf n i :
  i < n → (root uf <$> seq 0 n) !! i = Some (root uf i).
Proof. intros Hi. by rewrite list_lookup_fmap, lookup_seq_lt. Qed.

Lemma roots_lookup_Some uf n i c :
  (root uf <$> seq 0 n) !! i = Some c ↔ i < n ∧ c = root uf i.
Proof.
  rewrite list_lookup_fmap. split.
  - intros H. destruct (seq 0 n !! i) as [k|] eqn:E; [|done].
    apply lookup_seq in E as [-> ?]. cbn in H. by inversion H.
  - intros [Hi ->]. by rewrite lookup_seq_lt.
Qed.

Lemma keep_roots_elem (ds : list str) clusters i content :
  (i, content) ∈ keep_roots ds clusters
  ↔ ds !! i = Some content ∧ clusters !! i = Some i.
Proof.
  unfold keep_roots. rewrite list_elem_of_filter, elem_of_lookup_imap. split.
  - intros [Hc (j & y & [= -> ->] & Hj)]. done.
  - intros [Hd Hc]. split; [done|]. by exists i, content.
Qed.

(** C2.  The fuzzy engine, for every corpus and configuration.  The run
    does not fail, and its cluster ids ([uf.find(i)] for every record
    [i]) satisfy: [uf.find(i) <= i]; record [i] is kept exactly when
    [uf.find(i) = i]; the cluster id [c] of a record is itself a record
    with cluster id [c], hence kept, and is the least id of its cluster
    (no record with cluster id [c] is below [c]).  The clusters hold the
    buckets: two records of one bucket of a hash table have the same
    cluster id. *)
Theorem cluster_root_min B R num_perm ngram batch_size perms ds :
  ∃ clusters,
    cluster_ids B R num_perm ngram batch_size perms ds = Some clusters ∧
    minhash_dedup B R num_perm ngram batch_size perms ds
    = Some ((keep_roots ds clusters).*2) ∧
    length clusters = length ds ∧
    (∀ i c, clusters !! i = Some c → c ≤ i) ∧
    (∀ i content, (i, content) ∈ keep_roots ds clusters
                  ↔ ds !! i = Some content ∧ clusters !! i = Some i) ∧
    (∀ i c, clusters !! i = Some c →
       clusters !! c = Some c ∧
       ∀ j, clusters !! j = Some c → c ≤ j) ∧
    (∀ hashtable cluster x y,
       hashtable ∈ build_tables B batch_size
                     (embed_all B R num_perm ngram perms ds) →
       cluster ∈ hashtable.*2 → x ∈ cluster → y ∈ cluster →
       x < length ds → y < length ds →
       clusters !! x = clusters !! y).
Proof.
  destruct (cluster_tables_spec
              (build_tables B batch_size (embed_all B R num_perm ngram perms ds)))
    as (uf & Huf & Hwf & Hsame).
  destruct (cluster_ids_spec B R num_perm ngram batch_size perms ds)
    as (uf' & Huf' & _ & Hids).
  rewrite Huf in Huf'. injection Huf' as <-.
  exists (root uf <$> seq 0 (length ds)).
  split; [done|]. split; [|split; [|split; [|split; [|split]]]].
  - unfold minhash_dedup. by rewrite Hids.
  - by rewrite length_fmap, length_seq.
  - intros i c [_ ->]%roots_lookup_Some. by apply root_le.
  - intros i content. apply keep_roots_elem.
  - intros i c [Hi ->]%roots_lookup_Some. split.
    + apply roots_lookup_Some. pose proof (root_le uf i Hwf).
      split; [lia|]. by rewrite root_root.
    + intros j [_ ->]%roots_lookup_Some. by apply root_le.
  - intros t c x y Ht Hc Hx Hy Hxn Hyn.
    rewrite !roots_lookup by done. f_equal. by eapply Hsame.
Qed.

End Driver.

Lemma cluster_root_min_witness :
  RuntimeOk forward_runtime ∧
  ∃ clusters,
    @cluster_ids forward_runtime 2 1 2 3 10 ([1; 2], [3; 4])%Z
      (of_string <$> ["a b c d e"; "x"; "a b c d e"]%string)
    = Some clusters ∧ length clusters = 3.
Proof.
  split; [exact forward_runtime_ok|].
  destruct (@cluster_root_min forward_runtime forward_runtime_ok
              2 1 2 3 10 ([1; 2], [3; 4])%Z
              (of_string <$> ["a b c d e"; "x"; "a b c d e"]%string))
    as (clusters & Hc & _ & Hlen & _).
  exists clusters. split; [exact Hc|exact Hlen].
Defined.

End FuzzyFacts.

(** ** The hash tables *)

Module TableFacts.
Import Str Bytes MinHash ClusterFacts.
Implicit Types (H : list byte) (tb : list (list byte * list nat)) (k key t : nat).

Lemma set_add_elem key members k :
  k ∈ set_add key members ↔ k = key ∨ k ∈ members.
Proof.
  unfold set_add. case_decide as Hin.
  - split; [by right|]. by intros [->|].
  - rewrite elem_of_app, list_elem_of_singleton. tauto.
Qed.

Lemma set_add_NoDup key members : NoDup members → NoDup (set_add key members).
Proof.
  intros Hnd. unfold set_add. case_decide as Hin; [done|].
  apply NoDup_app. split; [done|]. split; [|apply NoDup_singleton].
  intros x Hx ->%list_elem_of_singleton. done.
Qed.

Lemma set_add_nonempty key members : set_add key members ≠ [].
Proof.
  unfold set_add. case_decide as Hin.
  - intros ->. inversion Hin.
  - by destruct members.
Qed.

Lemma bucket_table_add H key tb H' :
  bucket H' (table_add H key tb)
  = if decide (H' = H) then set_add key (bucket H tb) else bucket H' tb.
Proof.
  induction tb as [|[H0 m] tb IH]; cbn.
  - repeat case_decide; by subst.
  - repeat (case_decide; cbn; subst); try done.
Qed.

Lemma keys_table_add H key tb H' :
  H' ∈ (table_add H key tb).*1 ↔ H' = H ∨ H' ∈ tb.*1.
Proof.
  induction tb as [|[H0 m] tb IH]; cbn.
  - rewrite list_elem_of_singleton, elem_of_nil. tauto.
  - case_decide; cbn; rewrite !elem_of_cons; [subst; tauto|].
    rewrite IH. tauto.
Qed.

Lemma keys_table_add_NoDup H key tb :
  NoDup tb.*1 → NoDup (table_add H key tb).*1.
Proof.
  induction tb as [|[H0 m] tb IH]; cbn; intros Hnd.
  - apply NoDup_singleton.
  - case_decide; cbn; [done|].
    apply NoDup_cons in Hnd as [Hnotin Hnd]. apply NoDup_cons. split; [|auto].
    rewrite keys_table_add. intros [->|]; done.
Qed.

(** With distinct keys the entries of a table are its buckets. *)
Lemma table_entry_bucket tb H members :
  NoDup tb.*1 → (H, members) ∈ tb → bucket H tb = members.
Proof.
  induction tb as [|[H0 m] tb IH]; cbn; intros Hnd Hin; [inversion Hin|].
  apply NoDup_cons in Hnd as [Hnotin Hnd].
  apply elem_of_cons in Hin as [[= -> ->]|Hin]; [by rewrite decide_True|].
  rewrite decide_False; [auto|]. intros ->. apply Hnotin.
  apply list_elem_of_fmap. by exists (H, members).
Qed.

Lemma table_key_entry tb H : H ∈ tb.*1 → (H, bucket H tb) ∈ tb.
Proof.
  induction tb as [|[H0 m] tb IH]; cbn; intros Hin; [inversion Hin|].
  case_decide; [subst; left|].
  apply elem_of_cons in Hin as [->|Hin]; [done|]. right. auto.
Qed.

Lemma band_ok_nil t : band_ok t [] [].
Proof.
  split; [apply NoDup_nil_2|]. split; [intros; apply NoDup_nil_2|].
  split; [intros H; cbn; rewrite elem_of_nil; tauto|].
  intros H k. cbn. rewrite elem_of_nil. split; [done|].
  intros (Hs & Hin & _). inversion Hin.
Qed.

Lemma band_ok_step t recs tb record :
  band_ok t recs tb → band_ok t (recs ++ [record]) (index_band t tb record).
Proof.
  intros (Hk & Hnd & Hne & Hmem). destruct record as [Hs key].
  unfold index_band. cbn [fst snd].
  destruct (Hs !! t) as [H|] eqn:EH.
  - split; [by apply keys_table_add_NoDup|]. split; [|split].
    + intros H'. rewrite bucket_table_add. case_decide; [|done].
      by apply set_add_NoDup.
    + intros H'. rewrite keys_table_add, bucket_table_add. case_decide.
      * split; [intros _; apply set_add_nonempty|by left].
      * rewrite Hne. split; [by intros [|]|by right].
    + intros H' k. rewrite bucket_table_add. case_decide as Heq.
      * subst H'. rewrite set_add_elem, Hmem. split.
        -- intros [->|(Hs' & Hin & Ht)].
           ++ exists Hs. split; [|done]. apply elem_of_app. right. left.
           ++ exists Hs'. split; [|done]. apply elem_of_app. by left.
        -- intros (Hs' & [Hin|[= -> ->]%list_elem_of_singleton]%elem_of_app & Ht);
             [right; by exists Hs'|by left].
      * rewrite Hmem. split.
        -- intros (Hs' & Hin & Ht). exists Hs'. split; [|done].
           apply elem_of_app. by left.
        -- intros (Hs' & [Hin|[= -> ->]%list_elem_of_singleton]%elem_of_app & Ht);
             [by exists Hs'|congruence].
  - split; [done|]. split; [done|]. split; [done|].
    intros H k. rewrite Hmem. split.
    + intros (Hs' & Hin & Ht). exists Hs'. split; [|done].
      apply elem_of_app. by left.
    + intros (Hs' & [Hin|[= -> ->]%list_elem_of_singleton]%elem_of_app & Ht);
        [by exists Hs'|congruence].
Qed.

Lemma band_ok_foldl t recs :
  band_ok t recs (foldl (index_band t) [] recs).
Proof.
  induction recs as [|record recs IH] using rev_ind.
  - apply band_ok_nil.
  - rewrite foldl_app. cbn. by apply band_ok_step.
Qed.

Lemma index_record_lookup key (Hs : list (list byte)) (tables : list table) t :
  index_record key Hs tables !! t
  = (λ tb, index_band t tb (Hs, key)) <$> tables !! t.
Proof.
  revert tables t. induction Hs as [|H Hs IH]; intros [|tb tables] t; cbn.
  - done.
  - unfold index_band. cbn. by destruct (_ !! t).
  - done.
  - destruct t as [|t]; [done|]. cbn. rewrite IH. done.
Qed.

Lemma index_batch_lookup (tables : list table) recs t :
  index_batch tables recs !! t
  = (λ tb, foldl (index_band t) tb recs) <$> tables !! t.
Proof.
  unfold index_batch. revert tables.
  induction recs as [|[Hs key] recs IH]; intros tables; cbn.
  - by destruct (tables !! t).
  - rewrite IH, index_record_lookup. by destruct (tables !! t).
Qed.

Lemma index_batch_concat (tables : list table)
    (bs : list (list (list (list byte) * nat))) :
  foldl index_batch tables bs = index_batch tables (concat bs).
Proof.
  revert tables. induction bs as [|b bs IH]; intros tables; [done|].
  cbn. rewrite IH. unfold index_batch. by rewrite foldl_app.
Qed.

Lemma concat_slices {A} (l : list A) (size m : nat) :
  concat ((λ j, slice l (j * size) (j * size + size)) <$> seq 0 m)
  = take (m * size) l.
Proof.
  induction m as [|m IH]; [done|].
  rewrite seq_S, fmap_app, concat_app, IH. cbn. rewrite app_nil_r.
  unfold slice. replace (m * size + size - m * size) with size by lia.
  rewrite take_take_drop. f_equal. lia.
Qed.

(** The batches of the clustering loop are the whole list, cut. *)
Lemma concat_batches {A} (l : list A) (batch_size : nat) :
  1 ≤ batch_size → concat (batches l batch_size) = l.
Proof.
  intros Hb. unfold batches. rewrite concat_slices. apply take_ge.
  pose proof (Nat.div_mod_eq (length l + batch_size - 1) batch_size).
  pose proof (Nat.mod_upper_bound (length l + batch_size - 1) batch_size).
  nia.
Qed.

Section Driver.
Context {rt : Runtime}.

Lemma build_tables_lookup B batch_size embedded t :
  1 ≤ batch_size → t < B →
  build_tables B batch_size embedded !! t
  = Some (foldl (index_band t) [] embedded).
Proof.
  intros Hb Ht. unfold build_tables.
  rewrite index_batch_concat, concat_batches, index_batch_lookup by done.
  by rewrite lookup_replicate_2.
Qed.

Lemma build_tables_length B batch_size embedded :
  length (build_tables B batch_size embedded) = B.
Proof.
  unfold build_tables. rewrite index_batch_concat.
  generalize (concat (batches embedded batch_size)). intros recs.
  assert (Hl : ∀ key Hs (tables : list table),
             length (index_record key Hs tables) = length tables).
  { intros key Hs. induction Hs as [|H Hs IH]; intros [|tb tables]; cbn; auto. }
  assert (Hb : ∀ (tables : list table),
             length (index_batch tables recs) = length tables).
  { unfold index_batch. induction recs as [|[Hs key] recs IH]; intros tables;
      cbn; [done|]. by rewrite IH, Hl. }
  by rewrite Hb, length_replicate.
Qed.

Lemma embed_all_elem B R num_perm ngram perms (ds : list str) Hs k :
  (Hs, k) ∈ embed_all B R num_perm ngram perms ds
  ↔ ∃ content, ds !! k = Some content ∧
      Hs = (embed_func content k num_perm ngram (HASH_RANGES B R) perms).1.
Proof.
  unfold embed_all. rewrite elem_of_lookup_imap. split.
  - intros (i & content & Heq & Hi). exists content.
    unfold embed_func in Heq. injection Heq as -> ->. done.
  - intros (content & Hk & ->). by exists k, content.
Qed.

End Driver.

End TableFacts.

(** ** The fuzzy engine: the whole run *)

Module PipelineFacts.
Import Str Bytes UnionFind MinHash.
Import BytesFacts MinHashFacts UnionFindFacts ClusterFacts FuzzyFacts TableFacts.

#[local] Arguments root : simpl never.

Section Driver.
Context `{!RuntimeOk rt}.

(** Band [t] of a record always has a key. *)
Lemma embed_func_key_lookup content idx num_perm n B R perms t :
  t < B →
  (embed_func content idx num_perm n (HASH_RANGES B R) perms).1 !! t
  = Some (slice (signature (iter_str_set (shingles content n)) num_perm perms)
                (t * R) ((t + 1) * R) ≫= be_bytes 8).
Proof.
  intros Ht. by rewrite embed_func_keys, list_lookup_fmap, HASH_RANGES_lookup.
Qed.

(** The keys do not depend on the id of the record. *)
Lemma embed_func_keys_idx content idx1 idx2 num_perm n hashranges perms :
  (embed_func content idx1 num_perm n hashranges perms).1
  = (embed_func content idx2 num_perm n hashranges perms).1.
Proof. done. Qed.

(** Two records with the same key in band [t] sit in one bucket of the
    table of band [t]. *)
Lemma cobucketed B R num_perm n batch_size perms ds i j ci cj t H :
  1 ≤ batch_size → t < B →
  ds !! i = Some ci → ds !! j = Some cj →
  (embed_func ci i num_perm n (HASH_RANGES B R) perms).1 !! t = Some H →
  (embed_func cj j num_perm n (HASH_RANGES B R) perms).1 !! t = Some H →
  ∃ hashtable cluster,
    build_tables B batch_size (embed_all B R num_perm n perms ds) !! t
    = Some hashtable ∧
    (H, cluster) ∈ hashtable ∧ i ∈ cluster ∧ j ∈ cluster.
Proof.
  intros Hb Ht Hi Hj HHi HHj.
  pose proof (band_ok_foldl t (embed_all B R num_perm n perms ds))
    as (Hk & Hnd & Hne & Hmem).
  eexists _, (bucket H _). split; [by apply build_tables_lookup|].
  assert (Hin : ∀ k c, ds !! k = Some c →
            (embed_func c k num_perm n (HASH_RANGES B R) perms).1 !! t = Some H →
            k ∈ bucket H (foldl (index_band t) []
                            (embed_all B R num_perm n perms ds))).
  { intros k c Hc HH. apply Hmem. eexists. split; [|exact HH].
    apply embed_all_elem. by exists c. }
  split; [|split; by eauto].
  apply table_key_entry, Hne. intros Hnil.
  specialize (Hin i ci Hi HHi). rewrite Hnil in Hin. inversion Hin.
Qed.

(** The run up to the cluster ids, with what the clustering
    guarantees. *)
Lemma fuzzy_run_spec B R num_perm n batch_size perms ds :
  ∃ uf,
    cluster_tables
      (build_tables B batch_size (embed_all B R num_perm n perms ds))
    = Some uf ∧
    well_formed uf ∧
    cluster_ids B R num_perm n batch_size perms ds
    = Some (root uf <$> seq 0 (length ds)) ∧
    (∀ i j ci cj t H,
       1 ≤ batch_size → t < B →
       ds !! i = Some ci → ds !! j = Some cj →
       (embed_func ci i num_perm n (HASH_RANGES B R) perms).1 !! t = Some H →
       (embed_func cj j num_perm n (HASH_RANGES B R) perms).1 !! t = Some H →
       root uf i = root uf j).
Proof.
  destruct (cluster_tables_spec
              (build_tables B batch_size (embed_all B R num_perm n perms ds)))
    as (uf & Huf & Hwf & Hsame).
  exists uf. split; [done|]. split; [done|]. split.
  - unfold cluster_ids. rewrite Huf. cbn. by apply find_clusters_spec.
  - intros i j ci cj t H Hb Ht Hi Hj HHi HHj.
    destruct (cobucketed B R num_perm n batch_size perms ds i j ci cj t H)
      as (tb & c & Htb & Hc & Hic & Hjc); try done.
    apply (Hsame tb c); [by eapply list_elem_of_lookup_2| |done..].
    apply list_elem_of_fmap. by exists (H, c).
Qed.

(** Records whose split has fewer than 5 tokens. *)
Lemma short_record_shingles content n :
  length (split content) < 5 → shingles content n = [].
Proof.
  intros Hs. unfold shingles, shingle_set.
  by rewrite TokenizationFacts.ngrams_short.
Qed.

Lemma iter_str_set_nil : iter_str_set [] = [].
Proof. apply Permutation_nil_r, iter_str_set_perm. Qed.

Lemma short_record_signature content n num_perm perms :
  length (split content) < 5 →
  signature (iter_str_set (shingles content n)) num_perm perms
  = replicate num_perm MAX_HASH.
Proof.
  intros Hs. by rewrite short_record_shingles, iter_str_set_nil, signature_nil.
Qed.

Lemma short_record_keys content idx n num_perm hashranges perms :
  length (split content) < 5 →
  (embed_func content idx num_perm n hashranges perms).1
  = (λ '(start, stop),
       slice (replicate num_perm MAX_HASH) start stop ≫= be_bytes 8)
      <$> hashranges.
Proof. intros Hs. by rewrite embed_func_keys, short_record_signature. Qed.

(** C10.  Short records collapse.  With at least one band and
    [batch_size >= 1]: a record whose split has fewer than 5 tokens has
    no shingle, its signature is [num_perm] times [2^32 - 1], and its
    band keys are those of that signature, the same for all such records.
    The run does not fail, and of two such records the one with the
    higher id has the cluster id of the other, is not its own cluster id,
    and is not among the records kept: all but the lowest-id short
    record are dropped. *)
Theorem short_records_collapse B R num_perm n batch_size perms ds :
  1 ≤ B → 1 ≤ batch_size →
  (∀ i content,
     ds !! i = Some content → length (split content) < 5 →
     shingles content n = [] ∧
     signature (iter_str_set (shingles content n)) num_perm perms
     = replicate num_perm MAX_HASH ∧
     (embed_func content i num_perm n (HASH_RANGES B R) perms).1
     = (λ '(start, stop),
          slice (replicate num_perm MAX_HASH) start stop ≫= be_bytes 8)
         <$> HASH_RANGES B R) ∧
  ∃ clusters,
    cluster_ids B R num_perm n batch_size perms ds = Some clusters ∧
    minhash_dedup B R num_perm n batch_size perms ds
    = Some ((keep_roots ds clusters).*2) ∧
    ∀ i j ci cj,
      i < j → ds !! i = Some ci → ds !! j = Some cj →
      length (split ci) < 5 → length (split cj) < 5 →
      clusters !! i = clusters !! j ∧
      clusters !! j ≠ Some j ∧
      (j, cj) ∉ keep_roots ds clusters.
Proof.
  intros HB Hb. split.
  - intros i content Hi Hs. split; [by apply short_record_shingles|].
    split; [by apply short_record_signature|by apply short_record_keys].
  - destruct (fuzzy_run_spec B R num_perm n batch_size perms ds)
      as (uf & Huf & Hwf & Hids & Hsame).
    exists (root uf <$> seq 0 (length ds)). split; [done|]. split.
    { unfold minhash_dedup. by rewrite Hids. }
    intros i j ci cj Hij Hi Hj Hsi Hsj.
    assert (Hr : root uf i = root uf j).
    { eapply (Hsame i j ci cj 0); [done|lia|done|done|..].
      - rewrite short_record_keys, list_lookup_fmap, HASH_RANGES_lookup
          by first [done|lia]. reflexivity.
      - rewrite short_record_keys, list_lookup_fmap, HASH_RANGES_lookup
          by first [done|lia]. reflexivity. }
    pose proof (lookup_lt_Some _ _ _ Hi). pose proof (lookup_lt_Some _ _ _ Hj).
    assert (Hne : (root uf <$> seq 0 (length ds)) !! j ≠ Some j).
    { rewrite roots_lookup by done. intros [= Hj'].
      pose proof (root_le uf i Hwf). lia. }
    split; [by rewrite !roots_lookup, Hr by done|]. split; [done|].
    rewrite keep_roots_elem. by intros [_ ?].
Qed.

End Driver.

(** C5.  Signature determinism and shingle-set congruence.  Take two
    runs, that is two runtimes with the same SHA-1 that may iterate sets
    in different orders.  (1) Whenever the shingle sets of two contents
    are equal (in particular for one content in both runs) [embed_func]
    gives them the same band keys, byte for byte, whatever the ids.
    (2) In a run of the driver on a corpus, with [batch_size >= 1], two
    records with equal shingle sets have the same key in every band [t]
    and are members of one bucket of the hash table of band [t]. *)
Theorem signature_deterministic (rt1 rt2 : Runtime)
    `{!RuntimeOk rt1, !RuntimeOk rt2} :
  (∀ data, @sha1_digest rt1 data = @sha1_digest rt2 data) →
  (∀ content1 content2 idx1 idx2 num_perm n hashranges perms,
     (∀ s, s ∈ shingles content1 n ↔ s ∈ shingles content2 n) →
     (@embed_func rt1 content1 idx1 num_perm n hashranges perms).1
     = (@embed_func rt2 content2 idx2 num_perm n hashranges perms).1) ∧
  (∀ B R num_perm n batch_size perms ds i j ci cj t,
     1 ≤ batch_size → t < B →
     ds !! i = Some ci → ds !! j = Some cj →
     (∀ s, s ∈ shingles ci n ↔ s ∈ shingles cj n) →
     ∃ hashtable H cluster,
       build_tables B batch_size (@embed_all rt1 B R num_perm n perms ds) !! t
       = Some hashtable ∧
       (@embed_func rt1 ci i num_perm n (HASH_RANGES B R) perms).1 !! t
       = Some H ∧
       (@embed_func rt1 cj j num_perm n (HASH_RANGES B R) perms).1 !! t
       = Some H ∧
       (H, cluster) ∈ hashtable ∧ i ∈ cluster ∧ j ∈ cluster).
Proof.
  intros Hd. split.
  - intros. by apply band_keys_congruent.
  - intros B R num_perm n batch_size perms ds i j ci cj t Hb Ht Hi Hj Hs.
    pose proof (embed_func_key_lookup (rt:=rt1) ci i num_perm n B R perms t Ht)
      as HHi.
    pose proof (embed_func_key_lookup (rt:=rt1) cj j num_perm n B R perms t Ht)
      as HHj.
    rewrite <- (band_keys_congruent rt1 rt1 ci cj i j) in HHj by done.
    rewrite HHi in HHj. injection HHj as HHj.
    destruct (cobucketed (rt:=rt1) B R num_perm n batch_size perms ds i j ci cj t
                _ Hb Ht Hi Hj HHi)
      as (tb & c & Htb & Hc & Hic & Hjc).
    { rewrite <- (band_keys_congruent rt1 rt1 ci cj i j) by done. exact HHi. }
    exists tb. eexists. exists c. split; [done|]. split; [exact HHi|].
    split; [|done].
    rewrite <- (band_keys_congruent rt1 rt1 ci cj i j) by done. exact HHi.
Qed.

Lemma signature_deterministic_witness :
  (RuntimeOk forward_runtime ∧ RuntimeOk backward_runtime ∧
   ∀ data, @sha1_digest forward_runtime data
           = @sha1_digest backward_runtime data) ∧
  (@embed_func forward_runtime (of_string "a b c d e f") 0 2 3
     (HASH_RANGES 2 1) ([1; 2], [3; 4])%Z).1
  = (@embed_func backward_runtime (of_string "a b c d e f") 1 2 3
       (HASH_RANGES 2 1) ([1; 2], [3; 4])%Z).1.
Proof.
  assert (Hd : ∀ data, @sha1_digest forward_runtime data
                       = @sha1_digest backward_runtime data) by reflexivity.
  split; [split; [exact forward_runtime_ok|split; [exact backward_runtime_ok|exact Hd]]|].
  apply (@signature_deterministic forward_runtime backward_runtime
           forward_runtime_ok backward_runtime_ok Hd).
  intros s. reflexivity.
Defined.

Lemma short_records_collapse_witness :
  (RuntimeOk forward_runtime ∧ 1 ≤ 2 ∧ 1 ≤ 10) ∧
  ∃ clusters,
    @cluster_ids forward_runtime 2 1 2 3 10 ([1; 2], [3; 4])%Z
      (of_string <$> ["a b"; "x y z"; ""]%string)
    = Some clusters.
Proof.
  split; [split; [exact forward_runtime_ok|lia]|].
  destruct (@short_records_collapse forward_runtime forward_runtime_ok
              2 1 2 3 10 ([1; 2], [3; 4])%Z
              (of_string <$> ["a b"; "x y z"; ""]%string))
    as (_ & clusters & Hc & _); [lia|lia|].
  exists clusters. exact Hc.
Defined.

End PipelineFacts.

(** ** The parameter oracle *)

Module OracleFacts.
Import MinHash.

(** *** The scan order *)

Lemma candidates_elem num_perm b r :
  (b, r) ∈ candidates num_perm
  ↔ (1 ≤ b ≤ num_perm) ∧ (1 ≤ r ≤ num_perm / b).
Proof.
  unfold candidates. rewrite list_elem_of_bind. split.
  - intros (b' & (r' & [= -> ->] & Hr%elem_of_seq)%list_elem_of_fmap
              & Hb%elem_of_seq). lia.
  - intros [Hb Hr]. exists b. split.
    + apply list_elem_of_fmap. exists r. split; [done|]. apply elem_of_seq. lia.
    + apply elem_of_seq. lia.
Qed.

Lemma seq_sorted start len : StronglySorted lt (seq start len).
Proof.
  revert start. induction len as [|len IH]; intros start; cbn.
  - constructor.
  - constructor; [apply IH|]. apply Forall_forall.
    intros x Hx%elem_of_seq. lia.
Qed.

Lemma bind_sorted {A B} (R1 : relation A) (R2 : relation B)
    (g : A → list B) (l : list A) :
  StronglySorted R1 l →
  (∀ a, StronglySorted R2 (g a)) →
  (∀ a1 a2 x y, R1 a1 a2 → x ∈ g a1 → y ∈ g a2 → R2 x y) →
  StronglySorted R2 (l ≫= g).
Proof.
  intros Hl Hg Hcross. induction Hl as [|a l Hl IH Hall]; cbn.
  - constructor.
  - apply StronglySorted_app. split; [|split; [apply Hg|apply IH]].
    intros x y Hx (a2 & Hy & Ha2)%list_elem_of_bind.
    apply (Hcross a a2); [|done..].
    by apply (proj1 (Forall_forall _ _) Hall).
Qed.

Lemma candidates_sorted num_perm :
  StronglySorted scanned_before (candidates num_perm).
Proof.
  unfold candidates. apply (bind_sorted lt).
  - apply seq_sorted.
  - intros b. apply (StronglySorted_fmap _ lt); [|apply seq_sorted].
    intros r1 r2 Hr. right. cbn. lia.
  - intros b1 b2 x y Hb (r1 & -> & _)%list_elem_of_fmap
                        (r2 & -> & _)%list_elem_of_fmap.
    by left.
Qed.

(** Where a candidate stands in the scan tells on which side of another
    it is. *)
Lemma candidates_split num_perm pre c post :
  candidates num_perm = pre ++ c :: post →
  (∀ c', c' ∈ pre → scanned_before c' c) ∧
  (∀ c', c' ∈ post → scanned_before c c').
Proof.
  intros Hsplit. pose proof (candidates_sorted num_perm) as Hs.
  rewrite Hsplit in Hs. apply StronglySorted_app in Hs as (Hcross & _ & Hs).
  split.
  - intros c' Hc'. apply Hcross; [done|left].
  - intros c' Hc'. apply StronglySorted_inv in Hs as [_ Hall].
    by apply (proj1 (Forall_forall _ _) Hall).
Qed.

Lemma scanned_before_asym c1 c2 :
  scanned_before c1 c2 → scanned_before c2 c1 → False.
Proof. unfold scanned_before. lia. Qed.

Lemma scanned_before_irrefl c : ¬ scanned_before c c.
Proof. unfold scanned_before. lia. Qed.

Section Sweep.
Context `{!NumbersOk nb}.
Variable error : nat → nat → number.

Lemma sweep_flat num_perm st :
  foldl (sweep_row error num_perm) st (seq 1 num_perm)
  = foldl (flat_step error) st (candidates num_perm).
Proof.
  unfold candidates. generalize (seq 1 num_perm). intros bs. revert st.
  induction bs as [|b bs IH]; intros st; [done|].
  cbn. rewrite foldl_app, <- IH. f_equal.
  unfold sweep_row. by rewrite foldl_fmap.
Qed.

Lemma num_lt_asym x y : num_lt x y = true → num_lt y x = false.
Proof.
  intros Hxy. destruct (num_lt y x) eqn:Hyx; [|done].
  by rewrite <- (num_lt_irrefl x), (num_lt_trans x y x).
Qed.

(** The state of the sweep after a run of candidates with errors below
    the initial one: the first of the candidates with the least error. *)
Lemma flat_sweep_spec (cs : list (nat * nat)) o0 :
  (∀ c, c ∈ cs → num_lt (error c.1 c.2) num_inf = true) →
  let st := foldl (flat_step error) (num_inf, o0) cs in
  (cs = [] ∧ st = (num_inf, o0)) ∨
  ∃ pre opt post,
    cs = pre ++ opt :: post ∧ st = (error opt.1 opt.2, opt) ∧
    (∀ c, c ∈ pre → num_lt (error opt.1 opt.2) (error c.1 c.2) = true) ∧
    (∀ c, c ∈ post → num_lt (error c.1 c.2) (error opt.1 opt.2) = false).
Proof.
  induction cs as [|c cs IH] using rev_ind; intros Hfin; [by left|].
  right. cbv zeta in *. rewrite foldl_app. cbn [foldl].
  destruct IH as [[-> ->]|(pre & opt & post & -> & -> & Hpre & Hpost)].
  { intros c' Hc'. apply Hfin, elem_of_app. by left. }
  - exists [], c, []. cbn. unfold flat_step, sweep_step.
    rewrite Hfin by (apply elem_of_app; right; left).
    split; [done|]. split; [by destruct c|].
    split; intros c' Hc'; inversion Hc'.
  - unfold flat_step at 1. unfold sweep_step.
    destruct (num_lt (error c.1 c.2) (error opt.1 opt.2)) eqn:Hlt.
    + exists (pre ++ opt :: post), c, []. split; [done|].
      split; [by destruct c|]. split; [|intros c' Hc'; inversion Hc'].
      intros c' [Hc'|[->|Hc']%elem_of_cons]%elem_of_app.
      * eapply num_lt_trans; [exact Hlt|by apply Hpre].
      * done.
      * destruct (num_lt_cotrans _ _ (error c'.1 c'.2) Hlt) as [|Hbad]; [done|].
        by rewrite Hpost in Hbad.
    + exists pre, opt, (post ++ [c]). split; [by rewrite <- app_assoc|].
      split; [done|]. split; [done|].
      intros c' [Hc'| ->%list_elem_of_singleton]%elem_of_app; [by apply Hpost|done].
Qed.

End Sweep.

(** C8.  The parameter oracle.  For [num_perm >= 1], when the error of
    every candidate of the sweep compares below the initial
    [float("inf")], [optimal_param] returns a pair [(b, r)] with
    [1 <= b <= num_perm], [1 <= r <= num_perm / b] and
    [b * r <= num_perm]; no candidate [(b', r')] of the sweep
    ([b'] in [[1, num_perm]], [r'] in [[1, num_perm / b']]) has a smaller
    error; and every candidate scanned before [(b, r)] (lower [b'], or
    the same [b'] and lower [r']) has a strictly larger error: among the
    candidates of least error the first scanned is returned. *)
Theorem optimal_param_spec `{!NumbersOk nb} threshold num_perm wfp wfn :
  1 ≤ num_perm →
  let error := weighted_error threshold wfp wfn in
  (∀ b r, 1 ≤ b ≤ num_perm → 1 ≤ r ≤ num_perm / b →
          num_lt (error b r) num_inf = true) →
  ∃ b r,
    optimal_param threshold num_perm wfp wfn = (b, r) ∧
    1 ≤ b ≤ num_perm ∧ 1 ≤ r ≤ num_perm / b ∧ b * r ≤ num_perm ∧
    (∀ b' r', 1 ≤ b' ≤ num_perm → 1 ≤ r' ≤ num_perm / b' →
              num_lt (error b' r') (error b r) = false) ∧
    (∀ b' r', 1 ≤ b' ≤ num_perm → 1 ≤ r' ≤ num_perm / b' →
              b' < b ∨ (b' = b ∧ r' < r) →
              num_lt (error b r) (error b' r') = true).
Proof.
  intros Hk error Hfin.
  destruct (flat_sweep_spec error (candidates num_perm) (0, 0))
    as [[Hnil _]|(pre & [b r] & post & Hcs & Hst & Hpre & Hpost)].
  { intros [b r] [Hb Hr]%candidates_elem. by apply Hfin. }
  { assert (Hin : (1, 1) ∈ candidates num_perm).
    { apply candidates_elem. rewrite Nat.div_1_r. lia. }
    rewrite Hnil in Hin. inversion Hin. }
  cbn [fst snd] in *.
  assert (Hopt : (b, r) ∈ candidates num_perm).
  { rewrite Hcs. apply elem_of_app. right. left. }
  apply candidates_elem in Hopt as [Hb Hr].
  destruct (candidates_split _ _ _ _ Hcs) as [Hbefore Hafter].
  exists b, r. split; [|split; [done|split; [done|split; [|split]]]].
  - unfold optimal_param. fold error. by rewrite sweep_flat, Hst.
  - pose proof (Nat.Div0.mul_div_le num_perm b). nia.
  - intros b' r' Hb' Hr'.
    assert (Hin : (b', r') ∈ candidates num_perm) by by apply candidates_elem.
    rewrite Hcs in Hin.
    apply elem_of_app in Hin as [Hin|[[= -> ->]|Hin]%elem_of_cons].
    + apply num_lt_asym. by apply (Hpre (b', r')).
    + apply num_lt_irrefl.
    + by apply (Hpost (b', r')).
  - intros b' r' Hb' Hr' Hlex.
    assert (Hin : (b', r') ∈ candidates num_perm) by by apply candidates_elem.
    rewrite Hcs in Hin.
    apply elem_of_app in Hin as [Hin|[[= -> ->]|Hin]%elem_of_cons].
    + by apply (Hpre (b', r')).
    + lia.
    + apply Hafter in Hin. unfold scanned_before in Hin. cbn in Hin. lia.
Qed.

Lemma optimal_param_spec_witness :
  (NumbersOk sample_numbers ∧ 1 ≤ 8) ∧
  ∃ b r, @optimal_param sample_numbers (Some 6%Z) 8 None None = (b, r) ∧
         b * r ≤ 8.
Proof.
  split; [split; [exact sample_numbers_ok|lia]|].
  destruct (@optimal_param_spec sample_numbers sample_numbers_ok
              (Some 6%Z) 8 None None) as (b & r & Ho & _ & _ & Hbr & _).
  - lia.
  - intros b r _ _. reflexivity.
  - exists b, r. split; [exact Ho|exact Hbr].
Defined.

End OracleFacts.

(** ** The fuzzy engine: idempotence *)

Module IdempotenceFacts.
Import Str Bytes UnionFind MinHash.
Import BytesFacts MinHashFacts UnionFindFacts ClusterFacts FuzzyFacts TableFacts.
Import PipelineFacts.

#[local] Arguments root : simpl never.

Lemma NoDup_all_equal {A} (l : list A) :
  NoDup l → (∀ x y, x ∈ l → y ∈ l → x = y) → length l ≤ 1.
Proof.
  intros Hnd Heq. destruct l as [|a [|b l]]; cbn; [lia..|].
  exfalso. apply NoDup_cons in Hnd as [Hnotin _]. apply Hnotin.
  rewrite (Heq a b); [left|left|right; left].
Qed.

Lemma filter_all {A} (P : A → Prop) `{∀ x, Decision (P x)} (l : list A) :
  Forall P l → filter P l = l.
Proof.
  induction 1 as [|x l Hx Hl IH]; [done|].
  by rewrite filter_cons, decide_True, IH.
Qed.

Lemma imap_pair_fst {A} (l : list A) : (imap pair l).*1 = seq 0 (length l).
Proof.
  apply list_eq. intros i. rewrite list_lookup_fmap, list_lookup_imap.
  destruct (l !! i) as [x|] eqn:E; cbn.
  - by rewrite lookup_seq_lt by by eapply lookup_lt_Some.
  - symmetry. apply lookup_ge_None. rewrite length_seq.
    by apply lookup_ge_None.
Qed.

Lemma imap_pair_snd {A} (l : list A) : (imap pair l).*2 = l.
Proof.
  apply list_eq. intros i. rewrite list_lookup_fmap, list_lookup_imap.
  by destruct (l !! i).
Qed.

Lemma filter_fst_NoDup {A B} (P : A * B → Prop) `{∀ x, Decision (P x)}
    (l : list (A * B)) :
  NoDup l.*1 → NoDup (filter P l).*1.
Proof.
  induction l as [|x l IH]; intros Hnd; [done|].
  rewrite fmap_cons in Hnd.
  apply NoDup_cons in Hnd as [Hnotin Hnd]. rewrite filter_cons.
  case_decide; [|auto]. rewrite fmap_cons. apply NoDup_cons. split; [|auto].
  intros (y & Hy & Hin%list_elem_of_filter)%list_elem_of_fmap.
  apply Hnotin. apply list_elem_of_fmap. exists y. tauto.
Qed.

Lemma keep_roots_NoDup (ds : list str) clusters :
  NoDup (keep_roots ds clusters).*1.
Proof.
  unfold keep_roots. apply filter_fst_NoDup.
  rewrite imap_pair_fst. apply NoDup_seq.
Qed.

Section Driver.
Context `{!RuntimeOk rt}.

(** Tables whose buckets hold one id each merge nothing. *)
Lemma union_table_small uf (hashtable : table) :
  Forall (λ cluster, length cluster ≤ 1) hashtable.*2 →
  union_table (Some uf) hashtable = Some uf.
Proof.
  unfold union_table. induction 1 as [|c cs Hc Hcs IH]; [done|].
  cbn. by rewrite union_cluster_small.
Qed.

Lemma cluster_tables_small (tables : list table) :
  Forall (λ hashtable : table,
            Forall (λ cluster, length cluster ≤ 1) hashtable.*2) tables →
  cluster_tables tables = Some empty.
Proof.
  intros Hall. unfold cluster_tables. generalize empty.
  induction Hall as [|t ts Ht Hts IH]; intros uf; [done|].
  cbn. by rewrite union_table_small.
Qed.

(** X21.  Idempotence of the fuzzy engine.  With [batch_size >= 1], a
    run on the output of a run, under the same configuration, returns
    that output: the records kept are roots of different clusters, so no
    two of them share a band key, every bucket of the second run holds
    one id, and nothing is merged. *)
Theorem minhash_dedup_idempotent B R num_perm n batch_size perms ds out :
  1 ≤ batch_size →
  minhash_dedup B R num_perm n batch_size perms ds = Some out →
  minhash_dedup B R num_perm n batch_size perms out = Some out.
Proof.
  intros Hb Hrun.
  destruct (fuzzy_run_spec B R num_perm n batch_size perms ds)
    as (uf & _ & Hwf & Hids & Hsame).
  unfold minhash_dedup in Hrun. rewrite Hids in Hrun. cbn in Hrun.
  injection Hrun as Hout.
  set (kept := keep_roots ds (root uf <$> seq 0 (length ds))) in *.
  (* a record of the output is a root of the first run *)
  assert (Hkept : ∀ x c, out !! x = Some c →
            ∃ i, kept !! x = Some (i, c) ∧ ds !! i = Some c ∧ root uf i = i).
  { intros x c Hx. rewrite <- Hout, list_lookup_fmap in Hx.
    destruct (kept !! x) as [[i c']|] eqn:E; [|done].
    cbn in Hx. injection Hx as ->. exists i. split; [done|].
    apply list_elem_of_lookup_2 in E. apply keep_roots_elem in E as [Hi Hr].
    split; [done|]. apply roots_lookup_Some in Hr as [_ Hr]. done. }
  (* no two records of the output share a key in any band *)
  assert (Hsmall : Forall (λ hashtable : table,
                      Forall (λ cluster, length cluster ≤ 1) hashtable.*2)
                     (build_tables B batch_size
                        (embed_all B R num_perm n perms out))).
  { apply Forall_lookup. intros t tb Htb.
    assert (Ht : t < B).
    { apply lookup_lt_Some in Htb. by rewrite build_tables_length in Htb. }
    rewrite build_tables_lookup in Htb by done. injection Htb as <-.
    pose proof (band_ok_foldl t (embed_all B R num_perm n perms out))
      as (Hk & Hnd & Hne & Hmem).
    apply Forall_forall.
    intros cluster ([H c] & -> & Hin)%list_elem_of_fmap. cbn.
    rewrite <- (table_entry_bucket _ H c Hk Hin).
    apply NoDup_all_equal; [apply Hnd|].
    intros x y (Hsx & [cx [Hx ->]]%embed_all_elem & HHx)%Hmem
               (Hsy & [cy [Hy ->]]%embed_all_elem & HHy)%Hmem.
    destruct (Hkept x cx Hx) as (ix & Hkx & Hdx & Hrx).
    destruct (Hkept y cy Hy) as (iy & Hky & Hdy & Hry).
    assert (Hi : ix = iy).
    { rewrite <- Hrx, <- Hry.
      by apply (Hsame ix iy cx cy t H). }
    subst iy. eapply (NoDup_lookup (kept.*1)); [apply keep_roots_NoDup| |].
    - rewrite list_lookup_fmap, Hkx. done.
    - rewrite list_lookup_fmap, Hky. done. }
  unfold minhash_dedup, cluster_ids.
  rewrite (cluster_tables_small _ Hsmall). cbn.
  rewrite find_clusters_spec by apply well_formed_empty. cbn.
  f_equal. unfold keep_roots. rewrite filter_all; [apply imap_pair_snd|].
  apply Forall_forall. intros [i c] (j & y & [= -> ->] & Hj)%elem_of_lookup_imap.
  rewrite roots_lookup by by eapply lookup_lt_Some. by rewrite root_empty.
Qed.

End Driver.

Lemma minhash_dedup_idempotent_witness :
  (RuntimeOk forward_runtime ∧ 1 ≤ 10 ∧
   @minhash_dedup forward_runtime 2 1 2 3 10 ([1; 2], [3; 4])%Z
     (of_string <$> ["a b c d e"; "x"; "a b c d e"; "y z"]%string)
   = Some (of_string <$> ["a b c d e"; "x"]%string)) ∧
  @minhash_dedup forward_runtime 2 1 2 3 10 ([1; 2], [3; 4])%Z
    (of_string <$> ["a b c d e"; "x"]%string)
  = Some (of_string <$> ["a b c d e"; "x"]%string).
Proof.
  split; [split; [exact forward_runtime_ok|split; [lia|reflexivity]]|].
  apply (@minhash_dedup_idempotent forward_runtime forward_runtime_ok
           2 1 2 3 10 ([1; 2], [3; 4])%Z
           (of_string <$> ["a b c d e"; "x"; "a b c d e"; "y z"]%string));
    [lia|reflexivity].
Defined.

End IdempotenceFacts.

(** ** The exact-hash engine: what holds *)

Module ExactReferenceFacts.
Import Str Bytes ExactHash.

Section Engine.
Context {digest : Type} `{EqDecision digest}.
Variable hash_func : list byte → digest.

#[local] Abbreviation digest_of c := (hash_func (encode_utf8 c)).
#[local] Abbreviation step :=
  (λ (st : list digest * list bool) '(idx, example),
     mp_exact_finder hash_func example idx st).





Lemma foldl_concat_on {A B C} (f : B → A → B) (h : B → C → B)
    (g : C → list A) (l : list C) (b : B) :
  (∀ b x, x ∈ l → h b x = foldl f b (g x)) →
  foldl h b l = foldl f b (concat (g <$> l)).
Proof.
  revert b. induction l as [|x l IH]; intros b Hh; [done|].
  cbn. rewrite foldl_app, <- Hh by left. apply IH.
  intros b' y Hy. apply Hh. by right.
Qed.


End Engine.
End ExactReferenceFacts.

(** ** n-grams: nothing is lost *)

Module TokenCoverFacts.
Import Str Bytes Tokenization StrFacts TokenizationFacts.

Lemma bind_take1_windows {A} (s : list A) n k :
  1 ≤ n → k ≤ length s →
  ((λ i, take n (drop i s)) <$> seq 0 k) ≫= take 1 = take k s.
Proof.
  intros Hn. induction k as [|k IH]; intros Hk; [done|].
  rewrite seq_S, fmap_app, bind_app, IH by lia. cbn.
  rewrite app_nil_r.
  destruct (lookup_lt_is_Some_2 s k) as [x Hx]; [lia|].
  rewrite (take_S_r _ _ _ Hx). f_equal.
  rewrite <- (take_drop_middle _ _ _ Hx) at 1.
  rewrite drop_app_length'; [|rewrite length_take; lia].
  destruct n; [lia|]. done.
Qed.

(** X1.  The n-grams lose no token.  For a window size [n >= 1] and a
    sequence at least as long as the guard [m], the sequence is the first
    items of its n-grams followed by the rest of the last n-gram; every
    item of the sequence occurs in some n-gram; and every n-gram has
    [min n (length s)] items. *)
Theorem ngrams_reassemble {A} (s : list A) n m :
  1 ≤ n → m ≤ length s →
  (ngrams s n m ≫= take 1) ++ drop 1 (default [] (last (ngrams s n m))) = s ∧
  (∀ i x, s !! i = Some x → ∃ w, w ∈ ngrams s n m ∧ x ∈ w) ∧
  (∀ w, w ∈ ngrams s n m → length w = Nat.min n (length s)).
Proof.
  intros Hn Hm.
  destruct (decide (length s < n)) as [Hlt|Hge].
  - rewrite ngrams_single by lia. cbn. rewrite app_nil_r.
    split; [apply take_drop|]. split.
    + intros i x Hx. exists s. split; [left|by eapply list_elem_of_lookup_2].
    + intros w ->%list_elem_of_singleton. lia.
  - rewrite ngrams_windows by lia. split; [|split].
    + rewrite bind_take1_windows by lia.
      replace (length s - n + 1) with (S (length s - n)) by lia.
      rewrite seq_S, fmap_app. cbn [fmap list_fmap]. rewrite last_snoc. cbn.
      rewrite (take_ge (drop _ _)) by (rewrite length_drop; lia).
      rewrite drop_drop.
      replace (length s - n + 1) with (S (length s - n)) by lia.
      apply take_drop.
    + intros i x Hx. pose proof (lookup_lt_Some _ _ _ Hx) as Hi.
      exists (take n (drop (Nat.min i (length s - n)) s)). split.
      * apply list_elem_of_fmap. eexists. split; [done|]. apply elem_of_seq. lia.
      * apply (list_elem_of_lookup_2 _ (i - Nat.min i (length s - n))).
        rewrite lookup_take_lt, lookup_drop by lia.
        rewrite <- Hx. f_equal. lia.
    + intros w (i & -> & Hi%elem_of_seq)%list_elem_of_fmap.
      rewrite length_take, length_drop. lia.
Qed.

Lemma ngrams_reassemble_witness :
  (1 ≤ 2 ∧ 1 ≤ length [10; 20; 30]) ∧
  (ngrams [10; 20; 30] 2 1 ≫= take 1)
    ++ drop 1 (default [] (last (ngrams [10; 20; 30] 2 1))) = [10; 20; 30].
Proof.
  split; [cbn; lia|].
  apply (ngrams_reassemble [10; 20; 30] 2 1); cbn; lia.
Defined.

End TokenCoverFacts.

(** ** The array variant of the n-grams, and the split *)

Module ChararrayFacts.
Import Str Bytes Tokenization StrFacts TokenizationFacts.

(** X2.  [ngram_np_chararray] against [ngrams], for a sequence of
    length [L].  When [1 <= n <= L] and [m <= L] the strings handed to
    [np.char.array] are the n-grams of [ngrams], each joined by single
    spaces, in the same order; when [m <= L < n] the one string is the
    whole sequence joined, where [ngrams] gives the whole sequence as its
    one n-gram.  Off that range the two differ: for a sequence shorter
    than the guard [ngram_np_chararray] yields one empty string where
    [ngrams] yields nothing, and for [n = 0] it yields [L + 1] empty
    strings where [ngrams] yields nothing. *)
Theorem ngram_np_chararray_ngrams (sequence : list str) (n m : nat) :
  (length sequence < m →
     ngram_np_chararray sequence n m = of_list [[]] ∧
     ngrams sequence n m = []) ∧
  (m ≤ length sequence → length sequence < n →
     ngram_np_chararray sequence n m = of_str (join [space] sequence) ∧
     ngrams sequence n m = [sequence]) ∧
  (1 ≤ n → m ≤ length sequence → n ≤ length sequence →
     ngram_np_chararray sequence n m
     = of_list (join [space] <$> ngrams sequence n m)) ∧
  (m ≤ length sequence →
     ngram_np_chararray sequence 0 m
     = of_list (replicate (length sequence + 1) []) ∧
     ngrams sequence 0 m = []).
Proof.
  unfold ngram_np_chararray. cbv zeta.
  split; [|split; [|split]]; [intros Hm|intros Hm Hn|intros H1 Hm Hn|intros Hm];
    (split || idtac).
  - by destruct (Nat.ltb_spec (length sequence) m); [|lia].
  - by apply ngrams_short.
  - destruct (Nat.ltb_spec (length sequence) m); [lia|].
    by destruct (Nat.ltb_spec (length sequence) n); [|lia].
  - by apply ngrams_single.
  - destruct (Nat.ltb_spec (length sequence) m); [lia|].
    destruct (Nat.ltb_spec (length sequence) n); [lia|].
    rewrite ngrams_windows by done. rewrite <- list_fmap_compose. f_equal.
    apply list_fmap_ext. intros _ i _. cbn. unfold slice. do 2 f_equal. lia.
  - destruct (Nat.ltb_spec (length sequence) m); [lia|]. cbn [Nat.ltb Nat.leb].
    f_equal. rewrite (const_fmap _ _ []).
    + by rewrite length_seq, Nat.sub_0_r.
    + intros _ i _. unfold slice. by rewrite Nat.add_0_r, Nat.sub_diag.
  - unfold ngrams. destruct (length sequence <? m); [done|].
    cbn. by destruct (length sequence).
Qed.

End ChararrayFacts.

Module SplitFacts.
Import Str StrFacts.

Lemma join_cons_char sep c (t : str) (ts : list str) :
  join sep ((c :: t) :: ts) = c :: join sep (t :: ts).
Proof. by destruct ts. Qed.

Lemma join_nil_cons sep (t : str) (ts : list str) :
  join sep ([] :: t :: ts) = sep ++ join sep (t :: ts).
Proof. done. Qed.

Lemma split_join content :
  join [space] (split content)
  = (λ c, if is_word c then c else space) <$> content.
Proof.
  induction content as [|c rest IH]; [done|].
  cbn [split fmap list_fmap]. pose proof (split_nonempty rest) as Hne.
  destruct (split rest) as [|t ts]; [done|].
  destruct (is_word c).
  - by rewrite join_cons_char, IH.
  - by rewrite join_nil_cons, IH.
Qed.

Lemma split_concat content :
  concat (split content) = filter (λ c, is_word c = true) content.
Proof.
  induction content as [|c rest IH]; [done|].
  rewrite filter_cons. cbn [split]. pose proof (split_nonempty rest) as Hne.
  destruct (split rest) as [|t ts]; [done|].
  destruct (is_word c).
  - rewrite decide_True by done. cbn in *. by rewrite IH.
  - rewrite decide_False by done. cbn in *. by rewrite IH.
Qed.

(** X3.  The split of [embed_func], [NON_ALPHA.split(content)].
    Joining the tokens with single spaces gives back the content with
    every character outside [A-Za-z0-9_] replaced by a space; the tokens
    concatenated are the word characters of the content, in order; there
    is one token more than there are delimiters; no token holds a
    delimiter.  A content whose only delimiters are spaces is given back
    unchanged by split-then-join, and a content without delimiters is its
    own single token. *)
Theorem split_join_mask (content : str) :
  join [space] (split content)
  = (λ c, if is_word c then c else space) <$> content ∧
  concat (split content) = filter (λ c, is_word c = true) content ∧
  length (split content)
  = S (length (filter (λ c, is_word c = false) content)) ∧
  Forall (λ t, forallb is_word t = true) (split content) ∧
  (Forall (λ c, is_word c = true ∨ c = space) content →
   join [space] (split content) = content) ∧
  (Forall (λ c, is_word c = true) content → split content = [content]).
Proof.
  split; [apply split_join|]. split; [apply split_concat|].
  split; [apply split_length|]. split; [apply split_tokens_word|]. split.
  - intros Hall. rewrite split_join.
    induction Hall as [|c rest Hc Hrest IH]; [done|].
    cbn. rewrite IH. f_equal. destruct Hc as [->| ->]; [done|].
    by destruct (is_word space).
  - induction 1 as [|c rest Hc Hrest IH]; [done|].
    cbn. by rewrite Hc, IH.
Qed.

End SplitFacts.

(** ** Encodings are injective; the signature as a minimum *)

Module EncodingFacts.
Import Str Bytes BytesFacts.
Local Open Scope Z_scope.

Lemma Z_of_byte_of_Z z : Z_of_byte (byte_of_Z z) = z mod 256.
Proof.
  unfold Z_of_byte, byte_of_Z, byte_of_N.
  assert (Hr : 0 ≤ z mod 256 < 256) by (apply Z.mod_pos_bound; lia).
  rewrite N.mod_small by lia.
  destruct (Byte.of_N (Z.to_N (z mod 256))) as [b|] eqn:E.
  - cbn. apply Byte.to_of_N in E. rewrite E. lia.
  - apply Byte.of_N_None_iff in E. lia.
Qed.

Lemma be_bytes_inj w u v :
  0 ≤ u < 256 ^ Z.of_nat w → 0 ≤ v < 256 ^ Z.of_nat w →
  be_bytes w u = be_bytes w v → u = v.
Proof.
  revert u v. induction w as [|w IH]; intros u v Hu Hv Heq.
  - cbn in Hu, Hv. lia.
  - rewrite !be_bytes_snoc in Heq.
    apply app_inj_2 in Heq as [Hhi Hlo]; [|done].
    injection Hlo as Hlo. apply (f_equal Z_of_byte) in Hlo.
    rewrite !Z_of_byte_of_Z in Hlo.
    rewrite Nat2Z.inj_succ, Z.pow_succ_r in Hu, Hv by lia.
    rewrite !Z.shiftr_div_pow2 in Hhi by lia. change (2 ^ 8) with 256 in Hhi.
    apply IH in Hhi.
    + rewrite (Z.div_mod u 256), (Z.div_mod v 256) by lia. congruence.
    + split; [apply Z.div_pos; lia|apply Z.div_lt_upper_bound; lia].
    + split; [apply Z.div_pos; lia|apply Z.div_lt_upper_bound; lia].
Qed.

Lemma bind_be_bytes_inj w (l1 l2 : list Z) :
  Forall (λ v, 0 ≤ v < 256 ^ Z.of_nat w) l1 →
  Forall (λ v, 0 ≤ v < 256 ^ Z.of_nat w) l2 →
  length l1 = length l2 →
  l1 ≫= be_bytes w = l2 ≫= be_bytes w → l1 = l2.
Proof.
  intros H1. revert l2. induction H1 as [|u l1 Hu H1 IH];
    intros [|v l2] H2 Hlen Heq; try done.
  inversion H2 as [|? ? Hv H2']; subst. cbn in Heq.
  apply app_inj_1 in Heq as [Hhd Htl]; [|by rewrite !length_be_bytes].
  f_equal; [by eapply be_bytes_inj|]. apply IH; [done|by injection Hlen|done].
Qed.

End EncodingFacts.

Module SignatureFacts.
Import Str Bytes Tokenization MinHash BytesFacts MinHashFacts EncodingFacts.
Local Open Scope Z_scope.

(** X4.  [sha1_hash32] reads the first four bytes of the 20-byte
    digest as a little-endian integer: the unpacking never lacks bytes
    and the value is below [2^32]. *)
Theorem sha1_hash32_word `{!RuntimeOk rt} (data : list byte) :
  0 ≤ sha1_hash32 data < 2 ^ 32 ∧
  ∃ b0 b1 b2 b3 rest,
    sha1_digest data = b0 :: b1 :: b2 :: b3 :: rest ∧
    sha1_hash32 data
    = Z_of_byte b0 + 256 * Z_of_byte b1 + 65536 * Z_of_byte b2
      + 16777216 * Z_of_byte b3.
Proof.
  split; [apply sha1_hash32_range|].
  unfold sha1_hash32. pose proof (sha1_digest_length data) as Hlen.
  destruct (sha1_digest data) as [|b0 [|b1 [|b2 [|b3 rest]]]]; try done.
  exists b0, b1, b2, b3, rest. split; [done|].
  cbn -[Z_of_byte Z.mul Z.add]. rewrite take_0. cbn [le_decode]. lia.
Qed.

Lemma sha1_hash32_word_witness :
  RuntimeOk forward_runtime ∧
  0 ≤ @sha1_hash32 forward_runtime [x01; x02] < 2 ^ 32.
Proof.
  split; [exact forward_runtime_ok|].
  apply (@sha1_hash32_word forward_runtime forward_runtime_ok [x01; x02]).
Defined.

Section WithRuntime.
Context {rt : Runtime}.

Lemma foldr_min_le (init : Z) (l : list Z) :
  foldr Z.min init l ≤ init ∧ (∀ x, x ∈ l → foldr Z.min init l ≤ x) ∧
  (foldr Z.min init l = init ∨ foldr Z.min init l ∈ l).
Proof.
  induction l as [|y l (IH1 & IH2 & IH3)]; cbn.
  - split; [lia|]. split; [by intros x Hx; inversion Hx|by left].
  - split; [lia|]. split.
    + intros x [->|Hx]%elem_of_cons; [lia|]. specialize (IH2 x Hx). lia.
    + destruct (Z.min_spec y (foldr Z.min init l)) as [[_ ->]|[_ ->]].
      * right. left.
      * destruct IH3 as [->|?]; [by left|right; by right].
Qed.

(** X5.  Slot [i] of the signature ([hashvalues] after the
    [vstack(...).min(axis=0)]), for permutation arrays of [num_perm]
    entries: it lies in [[0, MAX_HASH]]; it is at most the permuted hash
    of every token under [(a[i], b[i])]; it is either [MAX_HASH] or the
    permuted hash of one of the tokens; without tokens it is
    [MAX_HASH]. *)
Theorem signature_slot_min (tokens : list str) num_perm a b i :
  length a = num_perm → length b = num_perm → (i < num_perm)%nat →
  ∃ ai bi v,
    a !! i = Some ai ∧ b !! i = Some bi ∧
    signature tokens num_perm (a, b) !! i = Some v ∧
    0 ≤ v ≤ MAX_HASH ∧
    (∀ t, t ∈ tokens → v ≤ permute (sha1_hash32 (encode_utf8 t)) ai bi) ∧
    (v = MAX_HASH ∨
     ∃ t, t ∈ tokens ∧ v = permute (sha1_hash32 (encode_utf8 t)) ai bi) ∧
    (tokens = [] → v = MAX_HASH).
Proof.
  intros Ha Hb Hi.
  destruct (lookup_lt_is_Some_2 a i) as [ai Hai]; [lia|].
  destruct (lookup_lt_is_Some_2 b i) as [bi Hbi]; [lia|].
  exists ai, bi. eexists. split; [done|]. split; [done|].
  split; [by apply signature_lookup|].
  pose proof (foldr_min_le MAX_HASH
                ((λ t, permute (sha1_hash32 (encode_utf8 t)) ai bi) <$> tokens))
    as (H1 & H2 & H3).
  split; [|split; [|split]].
  - split; [|done]. destruct H3 as [->|(t & -> & _)%list_elem_of_fmap].
    + by vm_compute.
    + apply permute_range.
  - intros t Ht. apply H2. apply list_elem_of_fmap. by exists t.
  - destruct H3 as [?|(t & ? & ?)%list_elem_of_fmap]; [by left|right; by exists t].
  - by intros ->.
Qed.

Lemma zip_with_min_top_l (l : list Z) n :
  (length l ≤ n)%nat → Forall (λ v, v ≤ MAX_HASH) l →
  zip_with Z.min (replicate n MAX_HASH) l = l.
Proof.
  revert n. induction l as [|x l IH]; intros [|n] Hlen Hall; try done.
  - cbn in Hlen. lia.
  - inversion Hall; subst. cbn. rewrite IH by (cbn in Hlen; done || lia).
    f_equal. lia.
Qed.

Lemma zip_with_min_assoc (x y z : list Z) :
  zip_with Z.min x (zip_with Z.min y z)
  = zip_with Z.min (zip_with Z.min x y) z.
Proof.
  revert y z. induction x as [|u x IH]; intros [|v y] [|w z]; try done.
  cbn. rewrite IH. f_equal. lia.
Qed.

Lemma signature_length_le tokens num_perm a b :
  (length (signature tokens num_perm (a, b)) ≤ num_perm)%nat.
Proof.
  induction tokens as [|t tokens IH].
  - by rewrite signature_nil, length_replicate.
  - rewrite signature_cons, !length_zip_with. lia.
Qed.

(** X6.  Signatures merge.  The signature of the tokens of two lists
    taken together is the slot-wise minimum of the two signatures; so
    more tokens never raise a slot. *)
Theorem signature_union (tokens1 tokens2 : list str) num_perm a b :
  length a = num_perm → length b = num_perm →
  signature (tokens1 ++ tokens2) num_perm (a, b)
  = zip_with Z.min (signature tokens1 num_perm (a, b))
                   (signature tokens2 num_perm (a, b)) ∧
  Forall2 Z.le (signature (tokens1 ++ tokens2) num_perm (a, b))
               (signature tokens1 num_perm (a, b)).
Proof.
  intros Ha Hb.
  assert (Heq : signature (tokens1 ++ tokens2) num_perm (a, b)
                = zip_with Z.min (signature tokens1 num_perm (a, b))
                                 (signature tokens2 num_perm (a, b))).
  { induction tokens1 as [|t tokens1 IH].
    - rewrite signature_nil. cbn [app].
      rewrite zip_with_min_top_l; [done|apply signature_length_le|].
      eapply Forall_impl; [apply signature_range|]. intros v Hv. cbn in Hv. lia.
    - cbn [app]. rewrite !signature_cons, IH. apply zip_with_min_assoc. }
  split; [done|]. rewrite Heq.
  apply Forall2_same_length_lookup. split.
  - rewrite length_zip_with, !signature_length by done. lia.
  - intros i x y Hx Hy.
    apply lookup_zip_with_Some in Hx as (u & v & -> & Hu & Hv).
    rewrite Hu in Hy. injection Hy as <-. lia.
Qed.

End WithRuntime.

Lemma signature_slot_min_witness :
  (length [1; 2] = 2%nat ∧ length [3; 4] = 2%nat ∧ (1 < 2)%nat) ∧
  ∃ v, @signature forward_runtime [] 2 ([1; 2], [3; 4]) !! 1%nat = Some v ∧
       v = MAX_HASH.
Proof.
  split; [repeat split; lia|].
  destruct (@signature_slot_min forward_runtime [] 2 [1; 2] [3; 4] 1)
    as (ai & bi & v & _ & _ & Hv & _ & _ & _ & Hnil); [reflexivity|reflexivity|lia|].
  exists v. split; [exact Hv|by apply Hnil].
Defined.

Lemma signature_union_witness :
  (length [1; 2] = 2%nat ∧ length [3; 4] = 2%nat) ∧
  @signature forward_runtime ([of_string "a"] ++ [of_string "b"]) 2
    ([1; 2], [3; 4])
  = zip_with Z.min
      (@signature forward_runtime [of_string "a"] 2 ([1; 2], [3; 4]))
      (@signature forward_runtime [of_string "b"] 2 ([1; 2], [3; 4])).
Proof.
  split; [split; reflexivity|].
  apply (@signature_union forward_runtime [of_string "a"] [of_string "b"] 2
           [1; 2] [3; 4]); reflexivity.
Defined.

End SignatureFacts.

(** ** Band keys and bands *)

Module BandFacts.
Import Str Bytes Tokenization MinHash BytesFacts MinHashFacts EncodingFacts.

Section WithRuntime.
Context {rt : Runtime}.

Lemma band_signature_range tokens num_perm a b start len :
  Forall (λ v, 0 ≤ v < 256 ^ Z.of_nat 8)%Z
         (take len (drop start (signature tokens num_perm (a, b)))).
Proof.
  apply Forall_take, Forall_drop.
  eapply Forall_impl; [apply signature_range|].
  intros v Hv. cbn beta in Hv. rewrite MAX_HASH_eq in Hv.
  change (256 ^ Z.of_nat 8)%Z with (2 ^ 64)%Z. lia.
Qed.

(** X7.  Band keys collide exactly on equal bands.  With permutation
    arrays of [num_perm] entries and [B * R <= num_perm], band [i] of any
    two contents has a key, and the two keys are the same bytes exactly
    when the [R] signature entries of the band are the same: the encoding
    adds no collision. *)
Theorem band_key_collision content1 content2 idx1 idx2 num_perm n B R a b i :
  length a = num_perm → length b = num_perm →
  B * R ≤ num_perm → i < B →
  let keys1 :=
    (embed_func content1 idx1 num_perm n (HASH_RANGES B R) (a, b)).1 in
  let keys2 :=
    (embed_func content2 idx2 num_perm n (HASH_RANGES B R) (a, b)).1 in
  let band content :=
    take R (drop (i * R)
              (signature (iter_str_set (shingles content n)) num_perm (a, b))) in
  (∃ H1 H2, keys1 !! i = Some H1 ∧ keys2 !! i = Some H2) ∧
  (keys1 !! i = keys2 !! i ↔ band content1 = band content2).
Proof.
  intros Ha Hb HBR Hi. cbv zeta.
  rewrite !embed_func_keys, !list_lookup_fmap, !HASH_RANGES_lookup by done.
  cbn [fmap option_fmap option_map]. unfold slice.
  replace ((i + 1) * R - i * R) with R by lia.
  split; [by eauto|].
  set (s1 := signature (iter_str_set (shingles content1 n)) num_perm (a, b)).
  set (s2 := signature (iter_str_set (shingles content2 n)) num_perm (a, b)).
  assert (Hr1 : Forall (λ v, 0 ≤ v < 256 ^ Z.of_nat 8)%Z (take R (drop (i * R) s1)))
    by apply band_signature_range.
  assert (Hr2 : Forall (λ v, 0 ≤ v < 256 ^ Z.of_nat 8)%Z (take R (drop (i * R) s2)))
    by apply band_signature_range.
  assert (Hl1 : length (take R (drop (i * R) s1)) = R).
  { rewrite length_take, length_drop. unfold s1.
    rewrite signature_length by done. nia. }
  assert (Hl2 : length (take R (drop (i * R) s2)) = R).
  { rewrite length_take, length_drop. unfold s2.
    rewrite signature_length by done. nia. }
  clearbody s1 s2. split.
  - intros Heq. apply (bind_be_bytes_inj 8); [done|done|congruence|congruence].
  - by intros ->.
Qed.

End WithRuntime.

Lemma band_key_collision_witness :
  (length [1; 2]%Z = 2 ∧ length [3; 4]%Z = 2 ∧ 2 * 1 ≤ 2 ∧ 1 < 2) ∧
  ∃ H1 H2,
    (@embed_func forward_runtime (of_string "a b c d e") 0 2 3
       (HASH_RANGES 2 1) ([1; 2], [3; 4])%Z).1 !! 1 = Some H1 ∧
    (@embed_func forward_runtime (of_string "v w x y z") 1 2 3
       (HASH_RANGES 2 1) ([1; 2], [3; 4])%Z).1 !! 1 = Some H2.
Proof.
  split; [repeat split; lia|].
  apply (@band_key_collision forward_runtime (of_string "a b c d e")
           (of_string "v w x y z") 0 1 2 3 2 1 [1; 2]%Z [3; 4]%Z 1);
    [reflexivity|reflexivity|lia|lia].
Defined.

End BandFacts.

(** ** The parameter oracle: edge cases *)

Module OracleEdgeFacts.
Import Str Bytes MinHash BytesFacts MinHashFacts OracleFacts.

Section Sweep.
Context {nb : Numbers}.
Variable error : nat → nat → number.

(** The sweep without any assumption on [<]: as long as no candidate
    compared below the initial error nothing was stored; after that the
    pair stored is one of the candidates. *)
Lemma flat_sweep_first (cs : list (nat * nat)) o0 :
  let st := foldl (flat_step error) (num_inf, o0) cs in
  (st = (num_inf, o0) ∧
   ∀ c, c ∈ cs → num_lt (error c.1 c.2) num_inf = false) ∨
  (st.2 ∈ cs ∧ ∃ c, c ∈ cs ∧ num_lt (error c.1 c.2) num_inf = true).
Proof.
  induction cs as [|c cs IH] using rev_ind; cbv zeta.
  - left. split; [done|]. intros c Hc. inversion Hc.
  - rewrite foldl_app. cbn [foldl]. cbv zeta in IH.
    destruct IH as [[-> Hall]|[Hin (c' & Hc' & Hlt)]].
    + unfold flat_step, sweep_step.
      destruct (num_lt (error c.1 c.2) num_inf) eqn:Hlt.
      * right. cbn. split; [|exists c; split; [|done]].
        -- apply elem_of_app. right. destruct c. left.
        -- apply elem_of_app. right. left.
      * left. split; [done|].
        intros c' [Hc'| ->%list_elem_of_singleton]%elem_of_app; [by apply Hall|done].
    + right. split.
      * unfold flat_step, sweep_step.
        destruct (foldl _ _ cs) as [min_error opt]. cbn [snd] in *.
        destruct (num_lt (error c.1 c.2) min_error); cbn [snd]; apply elem_of_app.
        -- right. destruct c. left.
        -- by left.
      * exists c'. split; [|done]. apply elem_of_app. by left.
Qed.

End Sweep.

Lemma optimal_param_cases {nb : Numbers} threshold num_perm wfp wfn :
  let error := weighted_error threshold wfp wfn in
  let opt := optimal_param threshold num_perm wfp wfn in
  (opt = (0, 0) ∧
   ∀ b r, 1 ≤ b ≤ num_perm → 1 ≤ r ≤ num_perm / b →
          num_lt (error b r) num_inf = false) ∨
  ((1 ≤ opt.1 ≤ num_perm ∧ 1 ≤ opt.2 ≤ num_perm / opt.1) ∧
   ∃ b r, (1 ≤ b ≤ num_perm ∧ 1 ≤ r ≤ num_perm / b) ∧
          num_lt (error b r) num_inf = true).
Proof.
  cbv zeta. unfold optimal_param. rewrite sweep_flat.
  destruct (flat_sweep_first
              (weighted_error threshold wfp wfn) (candidates num_perm) (0, 0))
    as [[-> Hall]|[Hin ([b r] & Hc & Hlt)]].
  - left. split; [done|]. intros b r Hb Hr.
    apply (Hall (b, r)). by apply candidates_elem.
  - right. split.
    + destruct (foldl _ _ _).2 as [b' r']. by apply candidates_elem in Hin.
    + exists b, r. split; [by apply candidates_elem|done].
Qed.

Lemma optimal_param_fits {nb : Numbers} threshold num_perm wfp wfn :
  let opt := optimal_param threshold num_perm wfp wfn in
  opt.1 * opt.2 ≤ num_perm.
Proof.
  cbv zeta.
  destruct (optimal_param_cases threshold num_perm wfp wfn)
    as [[-> _]|[[Hb Hr] _]]; [cbn; lia|].
  pose proof (Nat.Div0.mul_div_le num_perm (optimal_param threshold num_perm wfp wfn).1).
  nia.
Qed.

(** X8.  [optimal_param] without any assumption on how the errors
    compare (they may be NaN).  The result is [(0, 0)] exactly when no
    candidate's error compares below [float("inf")]; otherwise it is a
    candidate of the sweep, [1 <= b <= num_perm] and
    [1 <= r <= num_perm / b]; either way [b * r <= num_perm]; and for
    [num_perm = 0] the result is [(0, 0)]. *)
Theorem optimal_param_zero {nb : Numbers} threshold num_perm wfp wfn :
  let error := weighted_error threshold wfp wfn in
  let opt := optimal_param threshold num_perm wfp wfn in
  (opt = (0, 0)
   ↔ ∀ b r, 1 ≤ b ≤ num_perm → 1 ≤ r ≤ num_perm / b →
            num_lt (error b r) num_inf = false) ∧
  (opt ≠ (0, 0) →
   1 ≤ opt.1 ≤ num_perm ∧ 1 ≤ opt.2 ≤ num_perm / opt.1) ∧
  opt.1 * opt.2 ≤ num_perm ∧
  optimal_param threshold 0 wfp wfn = (0, 0).
Proof.
  cbv zeta. split; [|split; [|split]].
  - destruct (optimal_param_cases threshold num_perm wfp wfn)
      as [[Heq Hall]|[[Hb Hr] (b & r & [Hb' Hr'] & Hlt)]].
    + done.
    + split.
      * intros Heq. rewrite Heq in Hb. cbn in Hb. lia.
      * intros Hall. by rewrite Hall in Hlt.
  - intros Hne.
    by destruct (optimal_param_cases threshold num_perm wfp wfn)
      as [[Heq _]|[? _]].
  - apply optimal_param_fits.
  - done.
Qed.

(** X9.  The bands the driver builds from the oracle's answer fit the
    signature: with [(B, R) = optimal_param(...)] and permutation arrays
    of [num_perm] entries, [B * R <= num_perm] and [embed_func] gives [B]
    band keys of exactly [8 * R] bytes each, whatever the content. *)
Theorem oracle_bands_fit {nb : Numbers} {rt : Runtime}
    threshold wfp wfn content idx num_perm n a b :
  length a = num_perm → length b = num_perm →
  let opt := optimal_param threshold num_perm wfp wfn in
  let keys :=
    (embed_func content idx num_perm n (HASH_RANGES opt.1 opt.2) (a, b)).1 in
  opt.1 * opt.2 ≤ num_perm ∧
  length keys = opt.1 ∧
  Forall (λ H, length H = 8 * opt.2) keys.
Proof.
  intros Ha Hb. cbv zeta.
  pose proof (optimal_param_fits threshold num_perm wfp wfn) as Hfit.
  cbv zeta in Hfit.
  destruct (optimal_param threshold num_perm wfp wfn) as [B R]. cbn [fst snd] in *.
  split; [done|]. rewrite embed_func_keys. split.
  - unfold HASH_RANGES. by rewrite !length_fmap, length_seq.
  - apply Forall_fmap, Forall_forall.
    intros [start stop] (i & [= -> ->] & Hi%elem_of_seq)%list_elem_of_fmap.
    cbn -[be_bytes signature shingles]. rewrite (length_bind_const _ _ 8) by apply length_be_bytes.
    unfold slice. rewrite length_take, length_drop, signature_length by done.
    nia.
Qed.

Lemma oracle_bands_fit_witness :
  (length [1; 2]%Z = 2 ∧ length [3; 4]%Z = 2) ∧
  let opt := @optimal_param sample_numbers (Some 2%Z) 2 None None in
  length (@embed_func forward_runtime (of_string "a b c d e") 0 2 3
            (HASH_RANGES opt.1 opt.2) ([1; 2], [3; 4])%Z).1 = opt.1.
Proof.
  split; [split; reflexivity|].
  apply (@oracle_bands_fit sample_numbers forward_runtime (Some 2%Z) None None
           (of_string "a b c d e") 0 2 3 [1; 2]%Z [3; 4]%Z); reflexivity.
Defined.

End OracleEdgeFacts.

(** ** Batches and buckets *)

Module BucketFacts.
Import Str Bytes MinHash BytesFacts MinHashFacts TableFacts.

(** X10.  Batching is transparent.  For [batch_size >= 1] the batches
    of the first clustering loop are not empty, hold at most [batch_size]
    records and, one after the other, are the embedded records; the hash
    tables built are those of indexing the records one by one, the same
    for every batch size. *)
Theorem batching_transparent B batch_size
    (embedded : list (list (list byte) * nat)) :
  1 ≤ batch_size →
  concat (batches embedded batch_size) = embedded ∧
  Forall (λ batch, 1 ≤ length batch ≤ batch_size)
         (batches embedded batch_size) ∧
  build_tables B batch_size embedded
  = index_batch (replicate B []) embedded ∧
  build_tables B batch_size embedded = build_tables B 1 embedded.
Proof.
  intros Hb.
  assert (Hall : ∀ bs, 1 ≤ bs →
            build_tables B bs embedded = index_batch (replicate B []) embedded).
  { intros bs Hbs. unfold build_tables.
    by rewrite index_batch_concat, concat_batches. }
  split; [by apply concat_batches|]. split; [|split].
  - unfold batches. apply Forall_fmap, Forall_forall.
    intros j Hj%elem_of_seq. cbn. unfold slice.
    rewrite length_take, length_drop.
    pose proof (Nat.div_mod_eq (length embedded + batch_size - 1) batch_size).
    pose proof (Nat.mod_upper_bound (length embedded + batch_size - 1) batch_size).
    nia.
  - by apply Hall.
  - rewrite !Hall by lia. done.
Qed.

Lemma batching_transparent_witness :
  1 ≤ 2 ∧
  build_tables 2 2 [([[x01]; [x02]], 0); ([[x01]; [x03]], 1); ([[x04]], 2)]
  = build_tables 2 1 [([[x01]; [x02]], 0); ([[x01]; [x03]], 1); ([[x04]], 2)].
Proof.
  split; [lia|].
  apply (batching_transparent 2 2
           [([[x01]; [x02]], 0); ([[x01]; [x03]], 1); ([[x04]], 2)]). lia.
Defined.

Section Driver.
Context {rt : Runtime}.

(** X11.  The hash table of band [t] after the first clustering loop,
    for [batch_size >= 1] and [t < B]: its keys are distinct; each bucket
    is a non-empty set without duplicates and holds exactly the ids of
    the records whose key in band [t] is the key of the bucket; and every
    record id sits in exactly one bucket. *)
Theorem bucket_partition B R num_perm n batch_size perms (ds : list str) t :
  1 ≤ batch_size → t < B →
  ∃ hashtable,
    build_tables B batch_size (embed_all B R num_perm n perms ds) !! t
    = Some hashtable ∧
    NoDup hashtable.*1 ∧
    (∀ H members, (H, members) ∈ hashtable →
       members ≠ [] ∧ NoDup members ∧
       ∀ k, k ∈ members
            ↔ ∃ content,
                ds !! k = Some content ∧
                (embed_func content k num_perm n (HASH_RANGES B R) perms).1 !! t
                = Some H) ∧
    (∀ k, k < length ds →
       ∃ H members,
         (H, members) ∈ hashtable ∧ k ∈ members ∧
         ∀ H' members', (H', members') ∈ hashtable → k ∈ members' → H' = H).
Proof.
  intros Hb Ht.
  pose proof (band_ok_foldl t (embed_all B R num_perm n perms ds))
    as (Hk & Hnd & Hne & Hmem).
  set (hashtable := foldl (index_band t) [] (embed_all B R num_perm n perms ds))
    in *.
  assert (Hmem' : ∀ H k, k ∈ bucket H hashtable
            ↔ ∃ content, ds !! k = Some content ∧
                (embed_func content k num_perm n (HASH_RANGES B R) perms).1 !! t
                = Some H).
  { intros H k. rewrite Hmem. split.
    - intros (Hs & (content & Hc & ->)%embed_all_elem & HH). by exists content.
    - intros (content & Hc & HH). eexists. split; [|exact HH].
      apply embed_all_elem. by exists content. }
  exists hashtable. split; [by apply build_tables_lookup|]. split; [done|].
  split.
  - intros H members Hin.
    pose proof (table_entry_bucket _ _ _ Hk Hin) as <-.
    split; [|split; [apply Hnd|apply Hmem']].
    apply Hne. apply list_elem_of_fmap. by exists (H, bucket H hashtable).
  - intros k Hlt. destruct (lookup_lt_is_Some_2 ds k Hlt) as [content Hc].
    assert (HH : (embed_func content k num_perm n (HASH_RANGES B R) perms).1 !! t
                 = Some (slice (signature (iter_str_set (shingles content n))
                                  num_perm perms) (t * R) ((t + 1) * R)
                         ≫= be_bytes 8)).
    { by rewrite embed_func_keys, list_lookup_fmap, HASH_RANGES_lookup. }
    eexists _, (bucket _ hashtable). split; [|split].
    + apply table_key_entry, Hne. intros Hnil.
      assert (Hin : k ∈ bucket
                (slice (signature (iter_str_set (shingles content n))
                          num_perm perms) (t * R) ((t + 1) * R) ≫= be_bytes 8)
                hashtable) by (apply Hmem'; by exists content).
      rewrite Hnil in Hin. inversion Hin.
    + apply Hmem'. by exists content.
    + intros H' members' Hin Hk'.
      pose proof (table_entry_bucket _ _ _ Hk Hin) as <-.
      apply Hmem' in Hk' as (content' & Hc' & HH').
      rewrite Hc in Hc'. injection Hc' as <-. congruence.
Qed.

End Driver.

Lemma bucket_partition_witness :
  (1 ≤ 10 ∧ 0 < 2) ∧
  ∃ hashtable,
    build_tables 2 10
      (@embed_all forward_runtime 2 1 2 3 ([1; 2], [3; 4])%Z
         (of_string <$> ["a b c d e"; "x"; "a b c d e"]%string)) !! 0
    = Some hashtable ∧ NoDup hashtable.*1.
Proof.
  split; [lia|].
  destruct (@bucket_partition forward_runtime 2 1 2 3 10 ([1; 2], [3; 4])%Z
              (of_string <$> ["a b c d e"; "x"; "a b c d e"]%string) 0)
    as (hashtable & Ht & Hnd & _); [lia|lia|].
  exists hashtable. split; [exact Ht|exact Hnd].
Defined.

End BucketFacts.

(** ** The fuzzy engine: what is kept *)

Module KeptFacts.
Import Str Bytes UnionFind MinHash.
Import BytesFacts MinHashFacts UnionFindFacts ClusterFacts FuzzyFacts TableFacts.
Import PipelineFacts IdempotenceFacts.

#[local] Arguments root : simpl never.
#[local] Arguments find : simpl never.
#[local] Arguments union : simpl never.

Lemma min_of_elem (cluster : list nat) : cluster ≠ [] → min_of cluster ∈ cluster.
Proof.
  destruct cluster as [|x rest]; [done|]. intros _. cbn.
  induction rest as [|y rest IH]; cbn; [left|].
  destruct (Nat.min_spec y (foldr Nat.min x rest)) as [[_ ->]|[_ ->]].
  - right. left.
  - apply elem_of_cons in IH as [->|IH]; [left|right; by right].
Qed.

(** A loop of steps that keep an invariant and do not fail. *)
Lemma foldl_invariant {A} (Inv : gmap nat nat → Prop)
    (step : gmap nat nat → A → option (gmap nat nat)) (l : list A) uf :
  (∀ uf a, a ∈ l → Inv uf → ∃ uf', step uf a = Some uf' ∧ Inv uf') →
  Inv uf →
  ∃ uf', foldl (λ o a, o ≫= λ p, step p a) (Some uf) l = Some uf' ∧ Inv uf'.
Proof.
  revert uf. induction l as [|a l IH]; intros uf Hstep Hinv; [by exists uf|].
  destruct (Hstep uf a) as (uf1 & Hs & Hinv1); [left|done|].
  destruct (IH uf1) as (uf' & Hf & Hinv'); [|done|].
  - intros p b Hb. apply Hstep. by right.
  - exists uf'. cbn. by rewrite Hs.
Qed.

Section Apart.
Context `{!RuntimeOk rt}.
(** The ids the clustering touches. *)
Variable touched : nat → Prop.

#[local] Abbreviation apart uf :=
  (well_formed uf ∧ ∀ z, ¬ touched z → ∀ w, root uf w = z ↔ w = z).

Lemma apart_empty : apart empty.
Proof.
  split; [apply well_formed_empty|]. intros z _ w. rewrite root_empty. tauto.
Qed.

Lemma union_apart uf x y :
  apart uf → touched x → touched y →
  ∃ uf', union uf x y = Some uf' ∧ apart uf'.
Proof.
  intros [Hwf Hap] Hx Hy.
  destruct (union_spec uf x y Hwf) as (uf' & Hu & Hwf' & Hr).
  exists uf'. split; [done|]. split; [done|]. intros z Hz w.
  assert (Hrx : root uf x ≠ z).
  { intros Heq. apply (proj1 (Hap z Hz x)) in Heq. apply Hz. by rewrite <- Heq. }
  assert (Hry : root uf y ≠ z).
  { intros Heq. apply (proj1 (Hap z Hz y)) in Heq. apply Hz. by rewrite <- Heq. }
  rewrite Hr. case_decide as Hmax.
  - split; [lia|]. intros ->.
    assert (root uf z = z) by by apply Hap. lia.
  - by apply Hap.
Qed.

Lemma union_cluster_apart uf cluster :
  apart uf → (2 ≤ length cluster → ∀ x, x ∈ cluster → touched x) →
  ∃ uf', union_cluster uf cluster = Some uf' ∧ apart uf'.
Proof.
  intros Hap Ht. unfold union_cluster.
  destruct (Nat.leb_spec (length cluster) 1) as [Hlen|Hlen]; [by exists uf|].
  apply (foldl_invariant (λ uf, apart uf)); [|done].
  intros p x Hx Hp. apply union_apart; [done|..].
  - apply Ht; [lia|]. by rewrite <- (iter_int_set_perm cluster).
  - apply Ht; [lia|]. apply min_of_elem. intros ->. cbn in Hlen. lia.
Qed.

Lemma union_table_apart uf (hashtable : table) :
  apart uf →
  (∀ cluster, cluster ∈ hashtable.*2 → 2 ≤ length cluster →
              ∀ x, x ∈ cluster → touched x) →
  ∃ uf', union_table (Some uf) hashtable = Some uf' ∧ apart uf'.
Proof.
  intros Hap Ht. unfold union_table.
  apply (foldl_invariant (λ uf, apart uf)); [|done].
  intros p c Hc Hp. apply union_cluster_apart; [done|]. by apply Ht.
Qed.

Lemma cluster_tables_apart (tables : list table) :
  (∀ hashtable cluster, hashtable ∈ tables → cluster ∈ hashtable.*2 →
     2 ≤ length cluster → ∀ x, x ∈ cluster → touched x) →
  ∃ uf, cluster_tables tables = Some uf ∧ apart uf.
Proof.
  intros Ht. unfold cluster_tables.
  destruct (foldl_invariant (λ uf, apart uf)
              (λ uf hashtable, union_table (Some uf) hashtable) tables empty)
    as (uf & Hf & Hap).
  - intros p tb Htb Hp. apply union_table_apart; [done|]. intros c Hc. by apply (Ht tb c).
  - apply apart_empty.
  - exists uf. split; [|done]. rewrite <- Hf.
    apply foldl_pointwise. intros o t. apply union_table_bind.
Qed.

End Apart.

Lemma NoDup_other `{EqDecision A} (l : list A) x :
  NoDup l → 2 ≤ length l → x ∈ l → ∃ y, y ∈ l ∧ y ≠ x.
Proof.
  intros Hnd Hlen Hx. destruct l as [|a [|b l]]; [cbn in Hlen; lia..|].
  apply NoDup_cons in Hnd as [Hab _].
  destruct (decide (a = x)) as [->|Ha].
  - exists b. split; [right; left|]. intros ->. apply Hab. left.
  - exists a. split; [left|done].
Qed.

Section Driver.
Context `{!RuntimeOk rt}.

(** A record of the output is a record of the corpus that is its own
    cluster id, met at the same place among the records kept. *)
Lemma output_lookup (ds : list str) clusters x c :
  (keep_roots ds clusters).*2 !! x = Some c →
  ∃ i, keep_roots ds clusters !! x = Some (i, c) ∧
       ds !! i = Some c ∧ clusters !! i = Some i.
Proof.
  rewrite list_lookup_fmap. intros Hx.
  destruct (keep_roots ds clusters !! x) as [[i c']|] eqn:E; [|done].
  cbn in Hx. injection Hx as ->. exists i. split; [done|].
  apply list_elem_of_lookup_2 in E. by apply keep_roots_elem in E.
Qed.


(** X13.  No two records kept by the fuzzy engine have the same
    shingle set.  With at least one band and [batch_size >= 1]: a record
    whose shingle set is that of an earlier record gets the cluster id of
    that record and is dropped; so two records of the output with equal
    shingle sets stand at the same place, and the output holds no content
    twice. *)
Theorem minhash_dedup_distinct B R num_perm n batch_size perms (ds : list str) :
  1 ≤ B → 1 ≤ batch_size →
  ∃ clusters out,
    cluster_ids B R num_perm n batch_size perms ds = Some clusters ∧
    minhash_dedup B R num_perm n batch_size perms ds = Some out ∧
    (∀ i j ci cj,
       i < j → ds !! i = Some ci → ds !! j = Some cj →
       (∀ s, s ∈ shingles ci n ↔ s ∈ shingles cj n) →
       clusters !! i = clusters !! j ∧ (j, cj) ∉ keep_roots ds clusters) ∧
    (∀ x y cx cy,
       out !! x = Some cx → out !! y = Some cy →
       (∀ s, s ∈ shingles cx n ↔ s ∈ shingles cy n) → x = y) ∧
    NoDup out.
Proof.
  intros HB Hb.
  destruct (fuzzy_run_spec B R num_perm n batch_size perms ds)
    as (uf & Huf & Hwf & Hids & Hsame).
  assert (Hroot : ∀ i j ci cj,
            ds !! i = Some ci → ds !! j = Some cj →
            (∀ s, s ∈ shingles ci n ↔ s ∈ shingles cj n) →
            root uf i = root uf j).
  { intros i j ci cj Hi Hj Hs.
    eapply (Hsame i j ci cj 0); [done|lia|done|done|..].
    - apply embed_func_key_lookup. lia.
    - rewrite <- (band_keys_congruent rt rt ci cj i j) by done.
      apply embed_func_key_lookup. lia. }
  set (clusters := root uf <$> seq 0 (length ds)) in *.
  assert (Hout : ∀ x y cx cy,
            (keep_roots ds clusters).*2 !! x = Some cx →
            (keep_roots ds clusters).*2 !! y = Some cy →
            (∀ s, s ∈ shingles cx n ↔ s ∈ shingles cy n) → x = y).
  { intros x y cx cy Hx Hy Hs.
    apply output_lookup in Hx as (ix & Hkx & Hdx & Hrx).
    apply output_lookup in Hy as (iy & Hky & Hdy & Hry).
    apply roots_lookup_Some in Hrx as [_ Hrx].
    apply roots_lookup_Some in Hry as [_ Hry].
    assert (ix = iy) as <-.
    { rewrite Hrx, Hry. by apply (Hroot ix iy cx cy). }
    eapply (NoDup_lookup ((keep_roots ds clusters).*1));
      [apply keep_roots_NoDup| |].
    - by rewrite list_lookup_fmap, Hkx.
    - by rewrite list_lookup_fmap, Hky. }
  exists clusters, ((keep_roots ds clusters).*2).
  split; [done|]. split; [unfold minhash_dedup; by rewrite Hids|].
  split; [|split; [done|]].
  - intros i j ci cj Hij Hi Hj Hs.
    pose proof (lookup_lt_Some _ _ _ Hi). pose proof (lookup_lt_Some _ _ _ Hj).
    pose proof (Hroot i j ci cj Hi Hj Hs) as Hr.
    unfold clusters. rewrite !roots_lookup by done. split; [by rewrite Hr|].
    rewrite keep_roots_elem, roots_lookup by done. intros [_ [= Hj']].
    pose proof (root_le uf i Hwf). lia.
  - apply NoDup_alt. intros x y c Hx Hy. by apply (Hout x y c c).
Qed.

(** X14.  The fuzzy engine drops no record without a collision.  For
    [batch_size >= 1], a record that shares no band key with any other
    record of the corpus is its own cluster id, is kept, and is the
    cluster id of no other record. *)
Theorem minhash_dedup_keeps_isolated
    B R num_perm n batch_size perms (ds : list str) i ci :
  1 ≤ batch_size → ds !! i = Some ci →
  (∀ j cj t,
     j ≠ i → ds !! j = Some cj → t < B →
     (embed_func ci i num_perm n (HASH_RANGES B R) perms).1 !! t
     ≠ (embed_func cj j num_perm n (HASH_RANGES B R) perms).1 !! t) →
  ∃ clusters,
    cluster_ids B R num_perm n batch_size perms ds = Some clusters ∧
    clusters !! i = Some i ∧
    (i, ci) ∈ keep_roots ds clusters ∧
    (∀ j, clusters !! j = Some i → j = i).
Proof.
  intros Hb Hi Hiso.
  set (tables := build_tables B batch_size (embed_all B R num_perm n perms ds)).
  destruct (cluster_tables_apart
              (λ k, ∃ hashtable cluster,
                 hashtable ∈ tables ∧ cluster ∈ hashtable.*2 ∧
                 2 ≤ length cluster ∧ k ∈ cluster) tables)
    as (uf & Huf & Hwf & Hap).
  { intros tb c Htb Hc Hlen x Hx. by exists tb, c. }
  assert (Hnot : ¬ ∃ hashtable cluster,
            hashtable ∈ tables ∧ cluster ∈ hashtable.*2 ∧
            2 ≤ length cluster ∧ i ∈ cluster).
  { intros (tb & c & (t & Ht)%list_elem_of_lookup_1 & Hc & Hlen & Hic).
    assert (HtB : t < B).
    { apply lookup_lt_Some in Ht. unfold tables in Ht.
      by rewrite build_tables_length in Ht. }
    unfold tables in Ht. rewrite build_tables_lookup in Ht by done.
    injection Ht as <-.
    pose proof (band_ok_foldl t (embed_all B R num_perm n perms ds))
      as (Hk & Hnd & Hne & Hmem).
    apply list_elem_of_fmap in Hc as ([H c'] & -> & Hin). cbn [snd] in *.
    rewrite <- (table_entry_bucket _ H c' Hk Hin) in Hlen, Hic.
    destruct (NoDup_other _ i (Hnd H) Hlen Hic) as (j & Hjc & Hji).
    apply Hmem in Hic as (Hsi & [ci' [Hi' ->]]%embed_all_elem & HHi).
    apply Hmem in Hjc as (Hsj & [cj [Hj ->]]%embed_all_elem & HHj).
    rewrite Hi in Hi'. injection Hi' as <-.
    apply (Hiso j cj t Hji Hj HtB). congruence. }
  pose proof (lookup_lt_Some _ _ _ Hi) as Hlt.
  assert (Hri : root uf i = i) by by apply (Hap i Hnot).
  exists (root uf <$> seq 0 (length ds)). split; [|split; [|split]].
  - unfold cluster_ids. fold tables. rewrite Huf. cbn.
    by apply find_clusters_spec.
  - by rewrite roots_lookup, Hri.
  - apply keep_roots_elem. split; [done|]. by rewrite roots_lookup, Hri.
  - intros j [_ Hj]%roots_lookup_Some. by apply (Hap i Hnot).
Qed.

End Driver.


Lemma minhash_dedup_distinct_witness :
  (RuntimeOk forward_runtime ∧ 1 ≤ 2 ∧ 1 ≤ 10) ∧
  ∃ out,
    @minhash_dedup forward_runtime 2 1 2 3 10 ([1; 2], [3; 4])%Z
      (of_string <$> ["a b c d e"; "x"; "a b c d e"]%string) = Some out ∧
    NoDup out.
Proof.
  split; [split; [exact forward_runtime_ok|lia]|].
  destruct (@minhash_dedup_distinct forward_runtime forward_runtime_ok
              2 1 2 3 10 ([1; 2], [3; 4])%Z
              (of_string <$> ["a b c d e"; "x"; "a b c d e"]%string))
    as (clusters & out & _ & Hout & _ & _ & Hnd); [lia|lia|].
  exists out. split; [exact Hout|exact Hnd].
Defined.

Lemma minhash_dedup_keeps_isolated_witness :
  (RuntimeOk forward_runtime ∧ 1 ≤ 10 ∧
   (of_string <$> ["a b c d e"; "v w x y z"]%string) !! 1
   = Some (of_string "v w x y z")) ∧
  ∃ clusters,
    @cluster_ids forward_runtime 2 1 2 3 10 ([1; 2], [3; 4])%Z
      (of_string <$> ["a b c d e"; "v w x y z"]%string) = Some clusters ∧
    clusters !! 1 = Some 1.
Proof.
  split; [split; [exact forward_runtime_ok|split; [lia|reflexivity]]|].
  destruct (@minhash_dedup_keeps_isolated forward_runtime forward_runtime_ok
              2 1 2 3 10 ([1; 2], [3; 4])%Z
              (of_string <$> ["a b c d e"; "v w x y z"]%string) 1
              (of_string "v w x y z"))
    as (clusters & Hc & Hi & _); [lia|reflexivity| |].
  - intros [|[|j]] cj [|[|t]] Hj Hc Ht; try done; try lia.
    + injection Hc as <-. by vm_compute.
    + injection Hc as <-. by vm_compute.
  - exists clusters. split; [exact Hc|exact Hi].
Defined.

End KeptFacts.

(** ** The exact-hash engine: shards, indices and what is kept *)

Module ShardFacts.
Import Str Bytes ExactHash.

(** Consecutive slices between the marks [f 0 <= f 1 <= ...] make up the
    list up to the last mark. *)
Lemma concat_slices_marks {A} (l : list A) (f : nat → nat) m :
  f 0 = 0 → (∀ s, s < m → f s ≤ f (S s)) →
  concat ((λ s, slice l (f s) (f (S s))) <$> seq 0 m) = take (f m) l.
Proof.
  intros H0 Hmono. induction m as [|m IH]; [by rewrite H0|].
  rewrite seq_S, fmap_app, concat_app, IH by (intros; apply Hmono; lia).
  cbn. rewrite app_nil_r. unfold slice. rewrite take_take_drop.
  f_equal. specialize (Hmono m). lia.
Qed.

Lemma NUM_SHARDS_bounds len batch_size :
  1 ≤ batch_size →
  let num := NUM_SHARDS len batch_size in
  len ≤ num * batch_size ∧ num ≤ len ∧ (1 ≤ len → 1 ≤ num) ∧
  (1 ≤ num → (num - 1) * batch_size < len).
Proof.
  intros Hb. cbv zeta. unfold NUM_SHARDS.
  pose proof (Nat.div_mod_eq (len + batch_size - 1) batch_size).
  pose proof (Nat.mod_upper_bound (len + batch_size - 1) batch_size).
  repeat split; nia.
Qed.

Lemma shard_slice {A} (ds : list A) num s :
  shard ds num s
  = slice ds (length ds / num * s + Nat.min s (length ds mod num))
             (length ds / num * S s + Nat.min (S s) (length ds mod num)).
Proof.
  unfold shard. cbv zeta. f_equal.
  destruct (Nat.ltb_spec s (length ds mod num)); lia.
Qed.

Lemma concat_shards {A} (ds : list A) num :
  1 ≤ num → concat (shard ds num <$> seq 0 num) = ds.
Proof.
  intros Hnum.
  rewrite (list_fmap_ext _
             (λ s, slice ds
                     (length ds / num * s + Nat.min s (length ds mod num))
                     (length ds / num * S s + Nat.min (S s) (length ds mod num)))
             (seq 0 num) (λ _ s _, shard_slice ds num s)).
  rewrite (concat_slices_marks ds
             (λ s, length ds / num * s + Nat.min s (length ds mod num))).
  - apply take_ge.
    pose proof (Nat.div_mod_eq (length ds) num).
    pose proof (Nat.mod_upper_bound (length ds) num). nia.
  - lia.
  - intros s _. nia.
Qed.

Lemma shard_length {A} (ds : list A) num s :
  s < num →
  length (shard ds num s)
  = length ds / num + (if s <? length ds mod num then 1 else 0).
Proof.
  intros Hs. unfold shard, slice. rewrite length_take, length_drop.
  pose proof (Nat.div_mod_eq (length ds) num).
  pose proof (Nat.mod_upper_bound (length ds) num).
  destruct (Nat.ltb_spec s (length ds mod num)); nia.
Qed.

Lemma concat_all_shards {A} (ds : list A) batch_size :
  1 ≤ batch_size →
  concat (shard ds (NUM_SHARDS (length ds) batch_size)
            <$> seq 0 (NUM_SHARDS (length ds) batch_size)) = ds.
Proof.
  intros Hb.
  pose proof (NUM_SHARDS_bounds (length ds) batch_size Hb) as (_ & _ & H3 & _).
  cbv zeta in H3.
  destruct (decide (NUM_SHARDS (length ds) batch_size = 0)) as [Hz|Hz];
    [|apply concat_shards; lia].
  rewrite Hz in H3 |- *. destruct ds as [|x ds]; [done|].
  cbn [length] in H3. lia.
Qed.

(** X15.  The shards of the exact engine, for a dataset that is not
    empty (the engine does not take an empty one: its array of flags
    needs a shared memory block of at least one byte) and
    [batch_size >= 1]: there are [NUM_SHARDS] of them, at least one, at
    most as many as records and enough for [batch_size] records each; no
    shard is empty, none holds more than [batch_size] records, and one
    after the other they are the dataset. *)
Theorem shards_partition {A} (ds : list A) batch_size :
  ds ≠ [] → 1 ≤ batch_size →
  let num := NUM_SHARDS (length ds) batch_size in
  concat (shard ds num <$> seq 0 num) = ds ∧
  Forall (λ ds_shard, 1 ≤ length ds_shard ≤ batch_size)
         (shard ds num <$> seq 0 num) ∧
  1 ≤ num ≤ length ds ∧ length ds ≤ num * batch_size.
Proof.
  intros Hne Hb. cbv zeta.
  pose proof (NUM_SHARDS_bounds (length ds) batch_size Hb) as (H1 & H2 & H3 & H4).
  pose proof (concat_all_shards ds batch_size Hb) as Hcat.
  cbv zeta in *. set (num := NUM_SHARDS (length ds) batch_size) in *.
  assert (1 ≤ length ds) by (destruct ds; [done|cbn; lia]).
  split; [done|]. split; [|lia].
  - apply Forall_fmap, Forall_forall. intros s Hs%elem_of_seq. cbn.
    rewrite shard_length by lia.
    pose proof (Nat.div_mod_eq (length ds) num).
    pose proof (Nat.mod_upper_bound (length ds) num).
    destruct (Nat.ltb_spec s (length ds mod num)); nia.
Qed.

Lemma shards_partition_witness :
  ([10; 20; 30] ≠ [] ∧ 1 ≤ 2) ∧
  concat (shard [10; 20; 30] (NUM_SHARDS (length [10; 20; 30]) 2)
            <$> seq 0 (NUM_SHARDS (length [10; 20; 30]) 2))
  = [10; 20; 30].
Proof.
  split; [split; [discriminate|lia]|].
  apply (shards_partition [10; 20; 30] 2); [discriminate|lia].
Defined.

(** X16.  The index the exact engine flags, against the id of the
    record.  With [n] shards, record [j] of shard [s] is record
    [start + j] of the dataset, [start = (len / n) * s + min(s, len mod n)],
    which is within the dataset.  The index handed to [mp_exact_finder],
    [LEN_SHARD * s + j], is [start + j] for the shards below [len mod n]
    and [start + j - len mod n] for the others: it is the id of the
    record exactly when [s < len mod n] or [n] divides [len]. *)
Theorem flag_index_offset {A} (ds : list A) num_shards s j :
  s < num_shards → j < length (shard ds num_shards s) →
  let md := length ds mod num_shards in
  let start := length ds / num_shards * s + Nat.min s md in
  shard ds num_shards s !! j = ds !! (start + j) ∧
  start + j < length ds ∧
  flag_index (length (shard ds num_shards s)) s j
  = start + j - (if s <? md then 0 else md) ∧
  (flag_index (length (shard ds num_shards s)) s j = start + j
   ↔ s < md ∨ md = 0).
Proof.
  intros Hs Hj. cbv zeta. rewrite shard_length in * by done.
  unfold flag_index.
  pose proof (Nat.div_mod_eq (length ds) num_shards) as Hdm.
  pose proof (Nat.mod_upper_bound (length ds) num_shards ltac:(lia)) as Hmd.
  split; [|split; [|split]].
  - unfold shard, slice. rewrite lookup_take_lt, lookup_drop; [done|].
    destruct (Nat.ltb_spec s (length ds mod num_shards)); lia.
  - destruct (Nat.ltb_spec s (length ds mod num_shards)); nia.
  - destruct (Nat.ltb_spec s (length ds mod num_shards)); nia.
  - destruct (Nat.ltb_spec s (length ds mod num_shards)); nia.
Qed.

Lemma flag_index_offset_witness :
  (1 < 2 ∧ 0 < length (shard [10; 20; 30] 2 1)) ∧
  flag_index (length (shard [10; 20; 30] 2 1)) 1 0 = 2 - 1.
Proof.
  split; [split; [lia|cbn; lia]|].
  destruct (flag_index_offset [10; 20; 30] 2 1 0) as (_ & _ & H & _);
    [lia|cbn; lia|exact H].
Defined.

End ShardFacts.

Module ExactEngineFacts.
Import Str Bytes ExactHash ShardFacts.


Lemma fmap_concat_fmap {A B C} (g : B → C) (f : A → list B) (l : list A) :
  g <$> concat (f <$> l) = concat ((λ x, g <$> f x) <$> l).
Proof.
  induction l as [|a l IH]; [done|]. cbn. by rewrite fmap_app, IH.
Qed.

#[local] Abbreviation trues fl := (length (filter (λ b : bool, b = true) fl)).

Lemma trues_insert (fl : list bool) idx :
  trues (<[idx := true]> fl) ≤ S (trues fl).
Proof.
  revert idx. induction fl as [|b fl IH]; intros [|idx]; [cbn; lia..| |].
  - change (<[0 := true]> (b :: fl)) with (true :: fl).
    rewrite !filter_cons. destruct b; repeat case_decide; cbn; lia.
  - change (<[S idx := true]> (b :: fl)) with (b :: <[idx := true]> fl).
    rewrite !filter_cons. specialize (IH idx).
    case_decide; cbn; lia.
Qed.


Section Engine.
Context {digest : Type} `{EqDecision digest}.
Variable hash_func : list byte → digest.

#[local] Abbreviation digest_of c := (hash_func (encode_utf8 c)).
#[local] Abbreviation step :=
  (λ (st : list digest * list bool) '(idx, example),
     mp_exact_finder hash_func example idx st).
(** The records of a shard with the indices the lambda hands on. *)
#[local] Abbreviation indexed ds num s :=
  (imap (λ j c, (flag_index (length (shard ds num s)) s j, c))
        (shard ds num s)).

Lemma process_shard_fold (ds : list str) num st s :
  process_shard hash_func ds num st s = foldl step st (indexed ds num s).
Proof.
  unfold process_shard. cbv zeta.
  replace (indexed ds num s)
    with ((λ '(j, c), (flag_index (length (shard ds num s)) s j, c))
            <$> imap pair (shard ds num s)).
  - rewrite foldl_fmap. apply ClusterFacts.foldl_pointwise. by intros st' [j c].
  - rewrite fmap_imap. by apply imap_ext.
Qed.

Lemma exact_flags_fold batch_size (ds : list str) :
  let num := NUM_SHARDS (length ds) batch_size in
  exact_flags hash_func batch_size ds
  = (foldl step ([], replicate (length ds) false)
       (concat ((λ s, indexed ds num s) <$> seq 0 num))).2.
Proof.
  cbv zeta. unfold exact_flags. cbv zeta. f_equal.
  apply (ExactReferenceFacts.foldl_concat_on step).
  intros st s _. apply process_shard_fold.
Qed.

Lemma indexed_records batch_size (ds : list str) :
  1 ≤ batch_size →
  let num := NUM_SHARDS (length ds) batch_size in
  (concat ((λ s, indexed ds num s) <$> seq 0 num)).*2 = ds.
Proof.
  intros Hb. cbv zeta. rewrite fmap_concat_fmap.
  rewrite (list_fmap_ext _ (shard ds (NUM_SHARDS (length ds) batch_size))).
  - by apply concat_all_shards.
  - intros _ s _. rewrite fmap_imap.
    rewrite (imap_ext _ (λ _ c, c)) by done.
    apply list_eq. intros i. rewrite list_lookup_imap.
    by destruct (_ !! i).
Qed.

(** A pass over records with any indices: the dict holds the digests
    met, once each; the flags keep their number; every flag set is paid
    for by a record whose digest was in the dict. *)
Lemma pass_spec (recs : list (nat * str)) hd fl :
  let st := foldl step (hd, fl) recs in
  (∀ h, h ∈ st.1 ↔ h ∈ hd ∨ h ∈ (λ c, digest_of c) <$> recs.*2) ∧
  (NoDup hd → NoDup st.1) ∧
  length st.2 = length fl ∧
  trues st.2 + length st.1 ≤ trues fl + length hd + length recs.
Proof.
  induction recs as [|[idx ex] recs IH] using rev_ind; cbv zeta.
  - cbn. split; [|split; [done|split; [done|lia]]].
    intros h. rewrite elem_of_nil. tauto.
  - rewrite foldl_app. cbn [foldl]. cbv zeta in IH.
    destruct IH as (Hd & Hnd & Hlen & Hcnt).
    destruct (foldl step (hd, fl) recs) as [hd1 fl1]. cbn [fst snd] in *.
    rewrite !fmap_app, length_app. cbn [fmap list_fmap length].
    unfold mp_exact_finder. case_decide as Hin; cbn [fst snd].
    + split; [|split; [done|split]].
      * intros h. rewrite Hd, elem_of_app, list_elem_of_singleton.
        split; [tauto|]. intros [?|[?| ->]]; [tauto..|]. by apply Hd.
      * by rewrite length_insert.
      * pose proof (trues_insert fl1 idx). lia.
    + split; [|split; [|split]].
      * intros h. rewrite elem_of_cons, Hd, elem_of_app, list_elem_of_singleton.
        tauto.
      * intros Hhd. apply NoDup_cons. split; [done|auto].
      * done.
      * cbn [length]. lia.
Qed.


(** Records with digests that are new and differ set no flag. *)
Lemma pass_distinct (recs : list (nat * str)) hd fl :
  NoDup ((λ c, digest_of c) <$> recs.*2) →
  (∀ h, h ∈ (λ c, digest_of c) <$> recs.*2 → h ∉ hd) →
  (foldl step (hd, fl) recs).2 = fl.
Proof.
  induction recs as [|[idx ex] recs IH] using rev_ind; [done|].
  rewrite !fmap_app. cbn [fmap list_fmap].
  intros (Hnd & Hlast & _)%NoDup_app Hnew.
  rewrite foldl_app. cbn [foldl].
  pose proof (pass_spec recs hd fl) as (Hd & _). cbv zeta in Hd.
  assert (IH' : (foldl step (hd, fl) recs).2 = fl).
  { apply IH; [done|]. intros h Hh. apply Hnew, elem_of_app. by left. }
  destruct (foldl step (hd, fl) recs) as [hd1 fl1]. cbn [fst snd] in *.
  unfold mp_exact_finder. case_decide as Hin; cbn [snd]; [|done].
  exfalso. apply Hd in Hin as [Hin|Hin].
  - apply (Hnew (digest_of ex)); [|done]. apply elem_of_app. right. left.
  - apply (Hlast (digest_of ex)); [done|left].
Qed.




(** X18.  A corpus, not empty, without two records of one digest
    passes the exact engine unchanged, for every [batch_size >= 1]: no
    flag is set. *)
Theorem exact_dedup_distinct batch_size (ds : list str) :
  ds ≠ [] → 1 ≤ batch_size → NoDup ((λ c, digest_of c) <$> ds) →
  exact_flags hash_func batch_size ds = replicate (length ds) false ∧
  exact_dedup hash_func batch_size ds = ds.
Proof.
  intros _ Hb Hnd.
  assert (Hflags : exact_flags hash_func batch_size ds
                   = replicate (length ds) false).
  { rewrite exact_flags_fold. cbv zeta. apply pass_distinct.
    - by rewrite indexed_records.
    - intros h _ Hh. inversion Hh. }
  split; [done|]. unfold exact_dedup, keep_unflagged. rewrite Hflags.
  rewrite IdempotenceFacts.filter_all; [apply IdempotenceFacts.imap_pair_snd|].
  apply Forall_forall. intros [i c] (j & y & [= -> ->] & Hj)%elem_of_lookup_imap.
  apply lookup_replicate_2. by eapply lookup_lt_Some.
Qed.




End Engine.


Lemma exact_dedup_distinct_witness :
  (of_string <$> ["a"; "b"; "c"]%string ≠ [] ∧ 1 ≤ 2 ∧
   NoDup (encode_utf8 <$> (of_string <$> ["a"; "b"; "c"]%string))) ∧
  exact_dedup id 2 (of_string <$> ["a"; "b"; "c"]%string)
  = of_string <$> ["a"; "b"; "c"]%string.
Proof.
  assert (Hnd : NoDup (encode_utf8 <$> (of_string <$> ["a"; "b"; "c"]%string)))
    by (by apply (bool_decide_unpack _)).
  split; [split; [discriminate|split; [lia|exact Hnd]]|].
  apply (exact_dedup_distinct id 2 (of_string <$> ["a"; "b"; "c"]%string));
    [discriminate|lia|exact Hnd].
Defined.



End ExactEngineFacts.

(** ** The bands and the signature prefix *)

Module PrefixFacts.
Import Str Bytes Tokenization MinHash BytesFacts MinHashFacts EncodingFacts.
Import TableFacts BandFacts.

Lemma concat_bind_fmap {A B C} (f : A → list B) (g : B → list C) (l : list A) :
  concat ((λ x, f x ≫= g) <$> l) = concat (f <$> l) ≫= g.
Proof.
  induction l as [|x l IH]; [done|]. cbn. by rewrite bind_app, IH.
Qed.

Lemma slice_take {A} (l : list A) start stop m :
  stop ≤ m → slice (take m l) start stop = slice l start stop.
Proof.
  intros Hm. unfold slice. apply list_eq. intros i.
  destruct (decide (i < stop - start)) as [Hi|Hi].
  - rewrite !lookup_take_lt, !lookup_drop by done.
    by rewrite lookup_take_lt by lia.
  - by rewrite !lookup_take_ge by lia.
Qed.

Section WithRuntime.
Context {rt : Runtime}.

Lemma band_keys_seq content idx num_perm n B R perms :
  (embed_func content idx num_perm n (HASH_RANGES B R) perms).1
  = (λ i, slice (signature (iter_str_set (shingles content n)) num_perm perms)
                (i * R) (i * R + R) ≫= be_bytes 8) <$> seq 0 B.
Proof.
  rewrite embed_func_keys. unfold HASH_RANGES. rewrite <- list_fmap_compose.
  apply list_fmap_ext. intros _ i _. cbn -[be_bytes signature shingles].
  do 2 f_equal. lia.
Qed.

(** X22.  The bands use a prefix of the signature.  With permutation
    arrays of [num_perm] entries and [B * R <= num_perm], the band keys of
    a content, one after the other, are the 8-byte big-endian encodings of
    the first [B * R] signature entries; two contents have the same list
    of band keys exactly when their signatures agree on those entries:
    the entries from [B * R] on play no part. *)
Theorem bands_use_prefix content1 content2 idx1 idx2 num_perm n B R a b :
  length a = num_perm → length b = num_perm → B * R ≤ num_perm →
  let keys1 :=
    (embed_func content1 idx1 num_perm n (HASH_RANGES B R) (a, b)).1 in
  let keys2 :=
    (embed_func content2 idx2 num_perm n (HASH_RANGES B R) (a, b)).1 in
  let hashvalues content :=
    signature (iter_str_set (shingles content n)) num_perm (a, b) in
  concat keys1 = take (B * R) (hashvalues content1) ≫= be_bytes 8 ∧
  (keys1 = keys2
   ↔ take (B * R) (hashvalues content1) = take (B * R) (hashvalues content2)).
Proof.
  intros Ha Hb HBR. cbv zeta. rewrite !band_keys_seq.
  set (s1 := signature (iter_str_set (shingles content1 n)) num_perm (a, b)).
  set (s2 := signature (iter_str_set (shingles content2 n)) num_perm (a, b)).
  assert (Hcat : ∀ s : list Z,
            concat ((λ i, slice s (i * R) (i * R + R) ≫= be_bytes 8) <$> seq 0 B)
            = take (B * R) s ≫= be_bytes 8).
  { intros s.
    rewrite (concat_bind_fmap (λ i, slice s (i * R) (i * R + R))).
    by rewrite concat_slices. }
  split; [apply Hcat|]. split.
  - intros Heq. apply (f_equal (@concat _)) in Heq. rewrite !Hcat in Heq.
    apply (bind_be_bytes_inj 8); [| | |done].
    + rewrite <- (drop_0 s1). apply band_signature_range.
    + rewrite <- (drop_0 s2). apply band_signature_range.
    + rewrite !length_take. unfold s1, s2.
      by rewrite !signature_length.
  - intros Heq. apply list_fmap_ext. intros k i [-> Hk]%lookup_seq.
    cbn -[be_bytes slice].
    rewrite <- (slice_take s1 _ _ (B * R)), <- (slice_take s2 _ _ (B * R)) by nia.
    by rewrite Heq.
Qed.

End WithRuntime.

Lemma bands_use_prefix_witness :
  (length [1; 2; 3]%Z = 3 ∧ length [3; 4; 5]%Z = 3 ∧ 2 * 1 ≤ 3) ∧
  concat (@embed_func forward_runtime (of_string "a b c d e") 0 3 3
            (HASH_RANGES 2 1) ([1; 2; 3], [3; 4; 5])%Z).1
  = take (2 * 1)
      (@signature forward_runtime
         (@iter_str_set forward_runtime (shingles (of_string "a b c d e") 3))
         3 ([1; 2; 3], [3; 4; 5])%Z) ≫= be_bytes 8.
Proof.
  split; [repeat split; lia|].
  apply (@bands_use_prefix forward_runtime (of_string "a b c d e")
           (of_string "a b c d e") 0 0 3 3 2 1 [1; 2; 3]%Z [3; 4; 5]%Z);
    [reflexivity|reflexivity|lia].
Defined.

End PrefixFacts.
